(** * Audible library ingestion and series reconciliation

    A shallow embedding of [server/src/services/audible-manager.ts]
    (class [AudibleManager]) together with the parts of its JavaScript
    sibling [EnhancedAudibleManager] that differ from it, and of the
    [audiobooks] table declared in [server/src/utils/database.ts].

    Conventions of the model:
    - a JavaScript value read from a spreadsheet cell is a [scalar];
      [undefined] is the absence of a key in the row;
    - numbers are exact rationals in canonical form ([Qc]); the model
      agrees with IEEE doubles on the whole numbers up to
      [Number.MAX_SAFE_INTEGER], where sums, differences and [String]
      are exact, and does not model rounding, NaN, infinities or the
      exponent notation of [String]; what the counting loops visit is
      therefore stated for whole positions in that range;
    - strings are sequences of 8-bit code units;
    - the store is the list of rows of the [audiobooks] table plus the
      AUTOINCREMENT counter; the wall-clock columns [created_at] and
      [updated_at] are left out. *)

From Stdlib Require Import Ascii String QArith Qcanon Qround Lqa Lia Sorted Permutation.
From stdpp Require Import base option list strings gmap pretty sorting.

Local Open Scope string_scope.
Local Open Scope list_scope.

(** ** JavaScript values *)

Inductive scalar : Type :=
  | SNull
  | SBool (b : bool)
  | SNum (q : Qc)
  | SStr (s : string).

Global Instance scalar_eq_dec : EqDecision scalar.
Proof. solve_decision. Defined.

(** A row of [XLSX.utils.sheet_to_json]: an object from column names to
    cell values. *)
Abbreviation row := (gmap string scalar).

Inductive js_error : Type :=
  | TypeError (msg : string).

Inductive result (A : Type) : Type :=
  | Ok (a : A)
  | Throw (e : js_error).
Global Arguments Ok {A} a.
Global Arguments Throw {A} e.

Global Instance result_ret : MRet result := fun A a => Ok a.
Global Instance result_bind : MBind result := fun A B k m =>
  match m with
  | Ok a => k a
  | Throw e => Throw e
  end.

(** The rows of a sheet are processed in order: the first exception
    aborts the loop. *)
Fixpoint traverse {A B} (f : A -> result B) (l : list A) : result (list B) :=
  match l with
  | [] => Ok []
  | a :: l' => b ← f a; bs ← traverse f l'; Ok (b :: bs)
  end.

(** *** Numbers *)

Definition of_Z (z : Z) : Qc := Q2Qc (inject_Z z).
Definition ratio (n : Z) (d : positive) : Qc := Q2Qc (n # d).

Definition is_integer (q : Qc) : bool := Pos.eqb (Qden q) 1.

(** Digits of the fractional part [r / d], most significant first;
    stops when the expansion terminates. *)
Fixpoint frac_digits (fuel : nat) (r d : Z) : string :=
  match fuel with
  | O => ""
  | S fuel' =>
      if Z.eqb r 0 then ""
      else pretty (10 * r / d)%Z +:+ frac_digits fuel' (10 * r mod d)%Z d
  end.

(** [String(n)] / template interpolation of a number, in plain decimal
    notation (the notation JavaScript uses between 1e-6 and 1e21). *)
Definition number_to_string (q : Qc) : string :=
  let n := Qnum q in
  let d := Zpos (Qden q) in
  let a := Z.abs n in
  (if Z.ltb n 0 then "-" else "")
  +:+ pretty (a / d)%Z
  +:+ (if Z.eqb (a mod d) 0 then "" else "." +:+ frac_digits 20 (a mod d)%Z d).

(** *** Coercions *)

(** ToBoolean. *)
Definition truthy (v : scalar) : bool :=
  match v with
  | SNull => false
  | SBool b => b
  | SNum q => negb (bool_decide (q = 0%Qc))
  | SStr s => negb (bool_decide (s = ""))
  end.

(** [String(v)]. *)
Definition to_string (v : scalar) : string :=
  match v with
  | SNull => "null"
  | SBool true => "true"
  | SBool false => "false"
  | SNum q => number_to_string q
  | SStr s => s
  end.

(** [!v] on an optional value: [undefined] is falsy. *)
Definition falsy (v : option scalar) : bool :=
  match v with
  | None => true
  | Some x => negb (truthy x)
  end.

(** [v || undefined]. *)
Definition or_undefined (v : option scalar) : option scalar :=
  if falsy v then None else v.

(** *** Characters and strings *)

Definition code (c : ascii) : N := N_of_ascii c.

Definition is_digit (c : ascii) : bool :=
  (48 <=? code c)%N && (code c <=? 57)%N.

(** [\s]: WhiteSpace and LineTerminator code units below 256. *)
Definition is_space (c : ascii) : bool :=
  let n := code c in
  ((9 <=? n)%N && (n <=? 13)%N) || (n =? 32)%N || (n =? 160)%N.

(** [.] without the [s] flag: anything but a line terminator. *)
Definition is_dot (c : ascii) : bool :=
  let n := code c in negb ((n =? 10)%N || (n =? 13)%N).

Definition lower_char (c : ascii) : ascii :=
  let n := code c in
  if ((65 <=? n)%N && (n <=? 90)%N)
     || ((192 <=? n)%N && (n <=? 222)%N && negb (n =? 215)%N)
  then ascii_of_N (n + 32) else c.

Definition chars (s : string) : list ascii := list_ascii_of_string s.
Definition text (l : list ascii) : string := string_of_list_ascii l.

(** [s.toLowerCase()]. *)
Definition toLowerCase (s : string) : string := text (map lower_char (chars s)).

Fixpoint drop_spaces (l : list ascii) : list ascii :=
  match l with
  | c :: l' => if is_space c then drop_spaces l' else l
  | [] => []
  end.

(** [s.trim()]. *)
Definition trim (s : string) : string :=
  text (rev (drop_spaces (rev (drop_spaces (chars s))))).

Definition digit_value (c : ascii) : Z := Z.of_N (code c) - 48.

(** Value of a run of decimal digits. *)
Definition digits_value (l : list ascii) : Z :=
  fold_left (fun acc c => 10 * acc + digit_value c)%Z l 0%Z.

(** [parseInt(s)] on a capture of [\d+], as the exact integer: the
    value of the source up to 2^53, beyond which the source rounds. *)
Definition parseInt (s : string) : Z := digits_value (chars s).

Fixpoint span_digits (l : list ascii) : list ascii * list ascii :=
  match l with
  | c :: l' =>
      if is_digit c then let '(ds, r) := span_digits l' in (c :: ds, r)
      else ([], l)
  | [] => ([], [])
  end.

(** [parseFloat(s)] on a string made of digits and dots only: the
    longest prefix of the form [d+], [d+.], [d+.d+] or [.d+], read as
    the exact decimal value, which the source rounds to the nearest
    double; [None] stands for NaN. *)
Definition parseFloat (s : string) : option Qc :=
  let '(ip, r) := span_digits (chars s) in
  let fp := match r with
            | c :: r' => if bool_decide (c = "."%char) then fst (span_digits r') else []
            | [] => []
            end in
  match ip, fp with
  | [], [] => None
  | _, _ =>
      Some (Q2Qc (inject_Z (digits_value ip)
                  + (digits_value fp # Z.to_pos (10 ^ Z.of_nat (length fp)))))
  end.

(** ** Regular expressions

    The fragment of ECMAScript regular expressions the source uses,
    with the backtracking semantics of the language: alternatives are
    tried in priority order (greedy quantifiers prefer one more
    iteration, lazy ones prefer to stop), and a search returns the
    leftmost match. *)

Inductive regex : Type :=
  | RChar (p : ascii -> bool)            (* a character class *)
  | RSeq (a b : regex)
  | RStar (greedy : bool) (a : regex)    (* a* and a*? *)
  | ROpt (a : regex)                     (* a? *)
  | RGroup (n : nat) (a : regex)         (* capture group number n *)
  | REnd.                                (* $ *)

(** Captures: group number to captured text. *)
Abbreviation captures := (list (nat * string)).

Fixpoint capture (n : nat) (c : captures) : option string :=
  match c with
  | [] => None
  | (m, t) :: c' => if Nat.eqb m n then Some t else capture n c'
  end.

Definition orelse {A} (x y : option A) : option A :=
  match x with
  | Some _ => x
  | None => y
  end.

Section Matcher.
Context {A : Type}.

(** [rmatch r s c k]: match [r] at the head of [s], then continue
    with [k] on what is left; backtrack into [r] when [k] fails. *)
Fixpoint rmatch (r : regex) (s : list ascii) (c : captures)
    (k : list ascii -> captures -> option A) : option A :=
  match r with
  | RChar p =>
      match s with
      | x :: s' => if p x then k s' c else None
      | [] => None
      end
  | RSeq a b => rmatch a s c (fun s' c' => rmatch b s' c' k)
  | ROpt a => orelse (rmatch a s c k) (k s c)
  | RGroup n a =>
      rmatch a s c (fun s' c' =>
        k s' ((n, text (take (length s - length s') s)) :: c'))
  | REnd =>
      match s with
      | [] => k s c
      | _ => None
      end
  | RStar greedy a =>
      (fix iterate (fuel : nat) (s : list ascii) (c : captures) : option A :=
         match fuel with
         | O => k s c
         | S fuel' =>
             let more :=
               rmatch a s c (fun s' c' =>
                 (* an iteration that consumes nothing is rejected *)
                 if (length s' <? length s)%nat then iterate fuel' s' c' else None) in
             if greedy then orelse more (k s c) else orelse (k s c) more
         end) (length s) s c
  end.
End Matcher.

(** The result of a successful search: the text before the match, the
    matched text, the text after it, and the captures. *)
Record match_result : Type := MatchResult {
  m_before : list ascii;
  m_text : list ascii;
  m_after : list ascii;
  m_groups : captures
}.

(** Try each start position from the left. *)
Fixpoint search (r : regex) (before s : list ascii) : option match_result :=
  let here :=
    rmatch r s [] (fun rest c =>
      Some (MatchResult (rev before) (take (length s - length rest) s) rest c)) in
  match here with
  | Some m => Some m
  | None =>
      match s with
      | [] => None
      | x :: s' => search r (x :: before) s'
      end
  end.

(** [str.match(re)] for a regular expression without the [g] flag. *)
Definition str_match (r : regex) (s : string) : option match_result :=
  search r [] (chars s).

(** [str.replace(re, '')] without the [g] flag: the first match is cut
    out. *)
Definition replace_first (r : regex) (s : string) : string :=
  match str_match r s with
  | Some m => text (m_before m ++ m_after m)
  | None => s
  end.

(** [m[n]] for a group that took part in the match. *)
Definition group (n : nat) (m : match_result) : string :=
  default "" (capture n (m_groups m)).

(** *** Pattern combinators *)

Definition lit (x : ascii) : regex := RChar (fun y => bool_decide (y = x)).
(** A letter under the [i] flag. *)
Definition lit_i (x : ascii) : regex :=
  RChar (fun y => bool_decide (lower_char y = lower_char x)).
Definition digit : regex := RChar is_digit.
Definition space : regex := RChar is_space.
Definition any : regex := RChar is_dot.
Definition plus (a : regex) : regex := RSeq a (RStar true a).
Definition star (a : regex) : regex := RStar true a.
Definition lazy_star (a : regex) : regex := RStar false a.

Fixpoint seq (l : list regex) : regex :=
  match l with
  | [] => RStar true (RChar (fun _ => false))
  | [a] => a
  | a :: l' => RSeq a (seq l')
  end.

Definition word (s : string) : regex := seq (map lit (chars s)).
Definition word_i (s : string) : regex := seq (map lit_i (chars s)).

(** ** Field parsers of [AudibleManager]

    The parsers are shared verbatim by [EnhancedAudibleManager], which
    returns [null] where [AudibleManager] returns [undefined]; both are
    [None] here. *)

(** [/,?\s*Book\s+\d+.*$/i] and its three siblings. *)
Definition suffix_pattern (keyword : regex) (gap : regex) : regex :=
  seq [ROpt (lit ","); star space; keyword; gap; plus digit; star any; REnd].

Definition book_suffix : regex := suffix_pattern (word_i "Book") (plus space).
Definition hash_suffix : regex :=
  seq [ROpt (lit ","); star space; lit "#"; plus digit; star any; REnd].
Definition volume_suffix : regex := suffix_pattern (word_i "Volume") (plus space).
Definition part_suffix : regex := suffix_pattern (word_i "Part") (plus space).

(** [series.trim] exists on strings only; on any other truthy value the
    call is a [TypeError]. *)
Definition cleanSeriesName (series : option scalar) : result (option string) :=
  match series with
  | None => Ok None
  | Some v =>
      if negb (truthy v) then Ok None
      else
        match v with
        | SStr s =>
            if bool_decide (trim s = "") then Ok None
            else
              Ok (Some (trim (replace_first part_suffix
                              (replace_first volume_suffix
                                (replace_first hash_suffix
                                  (replace_first book_suffix s))))))
        | _ => Throw (TypeError "series.trim is not a function")
        end
  end.

(** [/(\d+(?:\.\d+)?)/] *)
Definition position_pattern : regex :=
  RGroup 1 (seq [plus digit; ROpt (seq [lit "."; plus digit])]).

Definition parseSeriesPosition (position : option scalar) : option Qc :=
  if falsy position then None
  else
    match position with
    | Some v =>
        match str_match position_pattern (to_string v) with
        | Some m => parseFloat (group 1 m)
        | None => None
        end
    | None => None
    end.

(** [/(\d+)\s*hrs?.*?(\d+)\s*mins?/] *)
Definition hm_pattern : regex :=
  seq [RGroup 1 (plus digit); star space; word "hr"; ROpt (lit "s");
       lazy_star any;
       RGroup 2 (plus digit); star space; word "min"; ROpt (lit "s")].

(** [/(\d+):(\d+)(?::(\d+))?/] *)
Definition time_pattern : regex :=
  seq [RGroup 1 (plus digit); lit ":"; RGroup 2 (plus digit);
       ROpt (seq [lit ":"; RGroup 3 (plus digit)])].

(** [/(\d+)\s*mins?/] *)
Definition mins_pattern : regex :=
  seq [RGroup 1 (plus digit); star space; word "min"; ROpt (lit "s")].

(** [/(\d+)\s*hrs?/] *)
Definition hrs_pattern : regex :=
  seq [RGroup 1 (plus digit); star space; word "hr"; ROpt (lit "s")].

Definition parseDuration (duration : option scalar) : option Z :=
  if falsy duration then None
  else
    match duration with
    | None => None
    | Some v =>
        let str := toLowerCase (to_string v) in
        match str_match hm_pattern str with
        | Some hm => Some (parseInt (group 1 hm) * 60 + parseInt (group 2 hm))%Z
        | None =>
        match str_match time_pattern str with
        | Some time => Some (parseInt (group 1 time) * 60 + parseInt (group 2 time))%Z
        | None =>
        match str_match mins_pattern str with
        | Some mins => Some (parseInt (group 1 mins))
        | None =>
        match str_match hrs_pattern str with
        | Some hrs => Some (parseInt (group 1 hrs) * 60)%Z
        | None => None
        end end end end
    end.

(** [String(rating).replace(/[^\d.]/g, '')]: every character that is
    neither a digit nor a dot is removed. *)
Definition strip_rating (s : string) : string :=
  text (List.filter (fun c => is_digit c || bool_decide (c = "."%char)) (chars s)).

Definition parseRating (rating : option scalar) : option Qc :=
  if falsy rating then None
  else
    match rating with
    | Some v => parseFloat (strip_rating (to_string v))
    | None => None
    end.

(** ** The data model *)

(** The [Audiobook] interface of [types/index.ts], with the types the
    values have at run time ([row: any] lets a number through where the
    interface says [string]). *)
Record Audiobook : Type := mkAudiobook {
  id : Z;
  asin : option scalar;
  title : scalar;
  series_name : option string;
  series_position : option Qc;
  author : option scalar;
  narrator : option scalar;
  owned : bool;
  listened : bool;
  release_date : option string;
  purchase_date : option string;
  rating : option Qc;
  length_minutes : option Z
}.

(** A row of the [audiobooks] table ([Database.init]). *)
Record book_row : Type := mkRow {
  row_id : Z;                          (* INTEGER PRIMARY KEY AUTOINCREMENT *)
  row_asin : option scalar;            (* TEXT UNIQUE *)
  row_title : scalar;                  (* TEXT NOT NULL *)
  row_series_name : option string;
  row_series_position : option Qc;
  row_author : option scalar;
  row_narrator : option scalar;
  row_owned : bool;
  row_listened : bool;
  row_release_date : option string;
  row_purchase_date : option string;
  row_rating : option Qc;
  row_length_minutes : option Z
}.

Global Instance Audiobook_eq_dec : EqDecision Audiobook.
Proof. solve_decision. Defined.
Global Instance book_row_eq_dec : EqDecision book_row.
Proof. solve_decision. Defined.

Record database : Type := mkDatabase {
  audiobooks : list book_row;
  sqlite_sequence : Z                  (* largest rowid ever handed out *)
}.

Definition empty_database : database := mkDatabase [] 0.

(** ** The store *)

(** The only uniqueness constraint besides the primary key is
    [asin TEXT UNIQUE]; SQL NULLs never collide. Two values collide
    when the scalars bound to the statement are equal, which is the
    comparison of the column when both are strings; a number and the
    text of its digits, which the TEXT affinity of the column makes
    collide, are kept apart here. *)
Definition asin_conflict (a : option scalar) (r : book_row) : bool :=
  match a, row_asin r with
  | Some x, Some y => bool_decide (x = y)
  | _, _ => false
  end.

Definition max_rowid (rows : list book_row) : Z :=
  foldr Z.max 0%Z (row_id <$> rows).

(** The row id AUTOINCREMENT hands out next. *)
Definition next_rowid (d : database) : Z :=
  (Z.max (max_rowid (audiobooks d)) (sqlite_sequence d) + 1)%Z.

(** The [VALUES] list of the statement, in the order of its columns. *)
Definition to_row (rowid : Z) (bookData : Audiobook) : book_row :=
  mkRow rowid
    (asin bookData)
    (title bookData)
    (series_name bookData)
    (series_position bookData)
    (author bookData)
    (narrator bookData)
    (if owned bookData then true else false)
    (if listened bookData then true else false)
    (release_date bookData)
    (purchase_date bookData)
    (rating bookData)
    (length_minutes bookData).

(** [INSERT OR REPLACE INTO audiobooks (asin, title, ...) VALUES (...)]:
    the rows that would violate the uniqueness of [asin] are deleted,
    then the new row is inserted under a fresh id. Returns [lastID].
    [title TEXT NOT NULL] rejects no record of the interface, whose
    [title] is a string. *)
Definition upsertAudiobook (bookData : Audiobook) (d : database) : Z * database :=
  let lastID := next_rowid d in
  let kept := List.filter (fun r => negb (asin_conflict (asin bookData) r)) (audiobooks d) in
  (lastID, mkDatabase (kept ++ [to_row lastID bookData]) lastID).

(** [SELECT COUNT( * ) FROM audiobooks WHERE owned = 0] *)
Definition getMissingBooksCount (d : database) : nat :=
  length (List.filter (fun r => negb (row_owned r)) (audiobooks d)).

Definition set_listened (r : book_row) : book_row :=
  mkRow (row_id r) (row_asin r) (row_title r) (row_series_name r)
    (row_series_position r) (row_author r) (row_narrator r) (row_owned r)
    true
    (row_release_date r) (row_purchase_date r) (row_rating r) (row_length_minutes r).

(** [UPDATE audiobooks SET listened = 1 WHERE id = ?]; returns
    [changes > 0]. *)
Definition markAsListened (bookId : Z) (d : database) : bool * database :=
  let hit r := bool_decide (row_id r = bookId) in
  (existsb hit (audiobooks d),
   mkDatabase ((fun r => if hit r then set_listened r else r) <$> audiobooks d)
     (sqlite_sequence d)).

(** ** Series reconciliation *)

(** The record [addMissingBookPlaceholder] hands to [upsertAudiobook]. *)
Definition placeholder (seriesName : string) (position : Qc)
    (author : option scalar) : Audiobook :=
  {| id := 0;
     asin := None;
     title := SStr (seriesName +:+ " Book " +:+ number_to_string position);
     series_name := Some seriesName;
     series_position := Some position;
     author := author;
     narrator := None;
     owned := false;
     listened := false;
     release_date := None;
     purchase_date := None;
     rating := None;
     length_minutes := None |}.

(** The [try]/[catch] around the upsert only logs; the store of the
    model never rejects an insert. *)
Definition addMissingBookPlaceholder (seriesName : string) (position : Qc)
    (author : option scalar) (d : database) : database :=
  snd (upsertAudiobook (placeholder seriesName position author) d).

(** [for (let pos = start; pos < bound; pos++)]: the values [pos] takes
    in the body, with the number of iterations bounded by [fuel]. The
    counter is stepped in exact arithmetic: this is the loop of the
    source as long as [pos] is a whole number up to
    [Number.MAX_SAFE_INTEGER]; the source rounds other sums, and beyond
    2^53 its counter no longer advances. *)
Fixpoint count_from (fuel : nat) (pos bound : Qc) : list Qc :=
  match fuel with
  | O => []
  | S fuel' =>
      if decide (pos < bound)%Qc then pos :: count_from fuel' (pos + 1)%Qc bound
      else []
  end.

(** Enough iterations for the loop to leave by its condition. *)
Definition loop_fuel (start bound : Qc) : nat :=
  Z.to_nat (Qceiling (bound - start)%Qc).

Definition for_positions (start bound : Qc) : list Qc :=
  count_from (loop_fuel start bound) start bound.

(** The positions visited by the loop over adjacent pairs. *)
Fixpoint interior_gaps (positions : list Qc) : list Qc :=
  match positions with
  | current :: (next :: _) as rest =>
      (if decide (1 < next - current)%Qc
       then for_positions (current + 1)%Qc next else [])
      ++ interior_gaps rest
  | _ => []
  end.

(** The positions visited by the loop before the first book. *)
Definition leading_gap (positions : list Qc) : list Qc :=
  match positions with
  | firstPos :: _ =>
      if decide (1 < firstPos)%Qc then for_positions 1%Qc firstPos else []
  | [] => []
  end.

(** [(a, b) => (a.series_position || 0) - (b.series_position || 0)] is
    negative or zero. *)
Definition position_key (b : Audiobook) : Qc := default 0%Qc (series_position b).

Definition comes_first (a b : Audiobook) : bool :=
  bool_decide (position_key a ≤ position_key b)%Qc.

(** [Array.prototype.sort] is stable: equal keys keep their order. *)
Fixpoint insert_sorted (a : Audiobook) (l : list Audiobook) : list Audiobook :=
  match l with
  | [] => [a]
  | b :: l' => if comes_first a b then a :: l else b :: insert_sorted a l'
  end.

Definition sort_by_position (l : list Audiobook) : list Audiobook :=
  foldr insert_sorted [] l.

Definition has_position (b : Audiobook) : bool :=
  match series_position b with
  | Some _ => true
  | None => false
  end.

(** [books.filter(...).sort(...)] *)
Definition sortedBooks (books : list Audiobook) : list Audiobook :=
  sort_by_position (List.filter has_position books).

(** The known positions in ascending order. *)
Definition sorted_positions (books : list Audiobook) : list Qc :=
  position_key <$> sortedBooks books.

(** [books[0].author] *)
Definition first_author (books : list Audiobook) : option scalar :=
  match books with
  | b :: _ => author b
  | [] => None
  end.

(** The positions for which one series asks for a placeholder, in the
    order of the calls: interior gaps, then the gap before the first
    book. *)
Definition missing_positions (books : list Audiobook) : list Qc :=
  if (length books <? 2)%nat then []
  else if (length (sortedBooks books) <? 2)%nat then []
  else interior_gaps (sorted_positions books) ++ leading_gap (sorted_positions books).

(** A [Map] in insertion order. *)
Abbreviation series_map := (list (string * list Audiobook)).

Definition add_placeholders (seriesName : string) (author : option scalar)
    (positions : list Qc) (d : database) : database :=
  fold_left (fun d pos => addMissingBookPlaceholder seriesName pos author d) positions d.

(** One turn of [for (const [seriesName, books] of seriesMap)]. The
    loops read nothing from the store: their only effect is the awaited
    call of [addMissingBookPlaceholder] at each position. *)
Definition detect_series (entry : string * list Audiobook) (d : database) : database :=
  let '(seriesName, books) := entry in
  add_placeholders seriesName (first_author books) (missing_positions books) d.

Definition detectMissingSeriesBooks (seriesMap : series_map) (d : database) : database :=
  fold_left (fun d entry => detect_series entry d) seriesMap d.

(** The placeholders one run asks for, as records. *)
Definition series_placeholders (entry : string * list Audiobook) : list Audiobook :=
  (fun pos => placeholder (fst entry) pos (first_author (snd entry)))
    <$> missing_positions (snd entry).

Definition all_placeholders (seriesMap : series_map) : list Audiobook :=
  concat (series_placeholders <$> seriesMap).

(** ** Normalisation of a row *)

(** [possibleColumns]: the header names tried for each field, in order. *)
Definition asin_columns : list string := ["ASIN"; "asin"; "Asin"].
Definition title_columns : list string := ["Title"; "title"; "BookTitle"; "Product Name"].
Definition author_columns : list string := ["Author"; "author"; "Authors"; "By"].
Definition narrator_columns : list string := ["Narrator"; "narrator"; "Narrated By"].
Definition series_columns : list string := ["Series"; "series"; "Series Name"].
Definition seriesPosition_columns : list string :=
  ["Series Position"; "Book #"; "Book"; "#"].
Definition releaseDate_columns : list string :=
  ["Release Date"; "Publication Date"; "Date Added"].
Definition purchaseDate_columns : list string :=
  ["Purchase Date"; "Date Purchased"; "Added"].
Definition length_columns : list string := ["Length"; "Duration"; "Runtime"].
Definition rating_columns : list string := ["Rating"; "My Rating"; "Overall Rating"].
Definition categories_columns : list string := ["Categories"; "Genre"; "Genres"].

(** [row[name] !== undefined && row[name] !== null && row[name] !== ''] *)
Definition present (v : option scalar) : bool :=
  match v with
  | None => false
  | Some SNull => false
  | Some (SStr s) => negb (bool_decide (s = ""))
  | Some _ => true
  end.

(** The inner loop over [possibleNames]: the first present cell wins. *)
Fixpoint first_present (r : row) (names : list string) : option scalar :=
  match names with
  | [] => None
  | name :: names' =>
      if present (r !! name) then r !! name else first_present r names'
  end.

(** [v || fallback] *)
Definition or_else (v : option scalar) (fallback : scalar) : scalar :=
  match v with
  | Some x => if truthy x then x else fallback
  | None => fallback
  end.

Section Ingestion.

(** The host's [Date]: [iso_date v] is
    [new Date(v).toISOString().split('T')[0]], and [None] when
    [new Date(v).getTime()] is NaN. Which strings a host accepts is
    left to the implementation by the language. *)
Variable iso_date : scalar -> option string.

Definition parseDate (dateStr : option scalar) : option string :=
  if falsy dateStr then None
  else
    match dateStr with
    | Some v => iso_date v
    | None => None
    end.

(** [AudibleManager.normalizeLibationData] *)
Definition normalizeLibationData (r : row) : result Audiobook :=
  let n_asin := first_present r asin_columns in
  let n_title := first_present r title_columns in
  let n_author := first_present r author_columns in
  let n_narrator := first_present r narrator_columns in
  let n_series := first_present r series_columns in
  let n_seriesPosition := first_present r seriesPosition_columns in
  let n_releaseDate := first_present r releaseDate_columns in
  let n_purchaseDate := first_present r purchaseDate_columns in
  let n_length := first_present r length_columns in
  let n_rating := first_present r rating_columns in
  cleaned ← cleanSeriesName n_series;
  Ok {| id := 0;
        asin := or_undefined n_asin;
        title := or_else n_title (SStr "Unknown Title");
        author := or_undefined n_author;
        narrator := or_undefined n_narrator;
        series_name := cleaned;
        series_position := parseSeriesPosition n_seriesPosition;
        release_date := parseDate n_releaseDate;
        purchase_date := parseDate n_purchaseDate;
        length_minutes := parseDuration n_length;
        rating := parseRating n_rating;
        owned := true;
        listened := false |}.

(** [seriesMap.get(name).push(book)], creating the entry at the end of
    the map when the name is new. *)
Fixpoint series_push (name : string) (book : Audiobook) (m : series_map) : series_map :=
  match m with
  | [] => [(name, [book])]
  | (n, books) :: m' =>
      if bool_decide (n = name) then (n, books ++ [book]) :: m'
      else (n, books) :: series_push name book m'
  end.

(** [if (book.series_name) { ... }]: the empty string is falsy. *)
Definition track_series (m : series_map) (book : Audiobook) : series_map :=
  match series_name book with
  | Some name => if bool_decide (name = "") then m else series_push name book m
  | None => m
  end.

Record summary : Type := mkSummary {
  processed : nat;
  series : nat;
  missingBooksFound : nat
}.

Definition upsert_all (books : list Audiobook) (d : database) : database :=
  fold_left (fun d book => snd (upsertAudiobook book d)) books d.

(** [AudibleManager.parseLibationExport], from the rows of the first
    sheet on. An exception in the first loop leaves the store
    untouched. *)
Definition parseLibationExport (data : list row) (d : database)
    : result (summary * database) :=
  processedBooks ← traverse normalizeLibationData data;
  let seriesMap := fold_left track_series processedBooks [] in
  let d1 := upsert_all processedBooks d in
  let d2 := detectMissingSeriesBooks seriesMap d1 in
  Ok ({| processed := length processedBooks;
         series := length seriesMap;
         missingBooksFound := getMissingBooksCount d2 |}, d2).

End Ingestion.

(** ** [EnhancedAudibleManager], where it differs *)

Module Enhanced.

(** The object literals of the JavaScript class: no [id], and a
    [categories] property. *)
Record Book : Type := mkBook {
  asin : option scalar;
  title : scalar;
  author : option scalar;
  narrator : option scalar;
  series_name : option string;
  series_position : option Qc;
  release_date : option string;
  purchase_date : option string;
  length_minutes : option Z;
  rating : option Qc;
  categories : option scalar;
  owned : bool;
  listened : bool
}.

Section Ingestion.
Variable iso_date : scalar -> option string.

Definition normalizeLibationData (r : row) : result Book :=
  let n_asin := first_present r asin_columns in
  let n_title := first_present r title_columns in
  let n_author := first_present r author_columns in
  let n_narrator := first_present r narrator_columns in
  let n_series := first_present r series_columns in
  let n_seriesPosition := first_present r seriesPosition_columns in
  let n_releaseDate := first_present r releaseDate_columns in
  let n_purchaseDate := first_present r purchaseDate_columns in
  let n_length := first_present r length_columns in
  let n_rating := first_present r rating_columns in
  let n_categories := first_present r categories_columns in
  cleaned ← cleanSeriesName n_series;
  Ok {| asin := or_undefined n_asin;
        title := or_else n_title (SStr "Unknown Title");
        author := Some (or_else n_author (SStr "Unknown Author"));
        narrator := or_undefined n_narrator;
        series_name := cleaned;
        series_position := parseSeriesPosition n_seriesPosition;
        release_date := parseDate iso_date n_releaseDate;
        purchase_date := parseDate iso_date n_purchaseDate;
        length_minutes := parseDuration n_length;
        rating := parseRating n_rating;
        categories := or_undefined n_categories;
        owned := true;
        listened := false |}.
End Ingestion.

(** The object [addMissingBookPlaceholder] hands to [upsertAudiobook]. *)
Definition placeholder (seriesName : string) (position : Qc)
    (author : option scalar) : Book :=
  {| asin := None;
     title := SStr (seriesName +:+ " Book " +:+ number_to_string position);
     series_name := Some seriesName;
     series_position := Some position;
     author := author;
     narrator := None;
     owned := false;
     listened := false;
     release_date := None;
     purchase_date := None;
     rating := None;
     length_minutes := None;
     categories := None |}.

End Enhanced.

(** ** A host for the examples

    A [Date] that recognises calendar dates written [YYYY-MM-DD] and
    rejects everything else. The theorems below hold for every host;
    this one only serves to run the examples. *)

Definition leap_year (y : Z) : bool :=
  ((y mod 4 =? 0) && negb (y mod 100 =? 0) || (y mod 400 =? 0))%Z.

Definition days_in_month (y m : Z) : Z :=
  if (m =? 2)%Z then (if leap_year y then 29 else 28)
  else if ((m =? 4) || (m =? 6) || (m =? 9) || (m =? 11))%Z then 30
  else 31.

Definition calendar_date (v : scalar) : option string :=
  match v with
  | SStr s =>
      match chars s with
      | [y1; y2; y3; y4; d1; m1; m2; d2; a1; a2] =>
          let y := digits_value [y1; y2; y3; y4] in
          let m := digits_value [m1; m2] in
          let a := digits_value [a1; a2] in
          if forallb is_digit [y1; y2; y3; y4; m1; m2; a1; a2]
             && bool_decide (d1 = "-"%char) && bool_decide (d2 = "-"%char)
             && (1 <=? m)%Z && (m <=? 12)%Z && (1 <=? a)%Z && (a <=? days_in_month y m)%Z
          then Some s else None
      | _ => None
      end
  | _ => None
  end.

(** ** Vocabulary of the statements *)

(** A record as it sits in the table, under some row id. *)
Definition stored_as (b : Audiobook) (r : book_row) : Prop :=
  exists rowid, r = to_row rowid b.

(** The order [sortedBooks] is sorted by. *)
Definition by_position (a b : Audiobook) : Prop :=
  (position_key a ≤ position_key b)%Qc.

(** What the table tells about a placeholder row. *)
Definition placeholder_row (seriesName : string) (position : Qc)
    (author : option scalar) (r : book_row) : Prop :=
  row_owned r = false
  /\ row_listened r = false
  /\ row_asin r = None
  /\ row_release_date r = None
  /\ row_purchase_date r = None
  /\ row_rating r = None
  /\ row_length_minutes r = None
  /\ row_title r = SStr (seriesName +:+ " Book " +:+ number_to_string position)
  /\ row_series_name r = Some seriesName
  /\ row_series_position r = Some position
  /\ row_author r = author.


(** The first-match-wins cascade of [parseDuration], pattern by pattern. *)
Definition duration_cascade (str : string) : option Z :=
  orelse ((fun m => parseInt (group 1 m) * 60 + parseInt (group 2 m))%Z
            <$> str_match hm_pattern str)
  (orelse ((fun m => parseInt (group 1 m) * 60 + parseInt (group 2 m))%Z
            <$> str_match time_pattern str)
  (orelse ((fun m => parseInt (group 1 m)) <$> str_match mins_pattern str)
          ((fun m => parseInt (group 1 m) * 60)%Z <$> str_match hrs_pattern str))).

(** The store an import leaves behind; an import that throws has not
    touched it. *)
Definition store_after (iso_date : scalar -> option string) (data : list row)
    (d : database) : database :=
  match parseLibationExport iso_date data d with
  | Ok (_, d') => d'
  | Throw _ => d
  end.

(** What the examples show of a row. *)
Definition row_summary (r : book_row)
    : Z * option scalar * scalar * option Qc * bool * bool :=
  (row_id r, row_asin r, row_title r, row_series_position r, row_owned r,
   row_listened r).

(** ** Sheets and groups of the examples *)

(** A row of an export with the columns ASIN, Title, Author, Series and
    Series Position. *)
Definition foo_row (asin title : string) (position : Qc) : row :=
  {[ "ASIN" := SStr asin;
     "Title" := SStr title;
     "Author" := SStr "A. Writer";
     "Series" := SStr "Foo";
     "Series Position" := SNum position ]}.

(** Series Foo, books 1, 2 and 4. *)
Definition foo_sheet : list row :=
  [ foo_row "B001" "Foo One" (of_Z 1);
    foo_row "B002" "Foo Two" (of_Z 2);
    foo_row "B004" "Foo Four" (of_Z 4) ].

(** The same sheet exported without the ASIN column. *)
Definition foo_sheet_without_asin : list row :=
  delete "ASIN" <$> foo_sheet.

(** An owned book of series Foo at a position. *)
Definition foo_book (position : Qc) : Audiobook :=
  {| id := 0;
     asin := None;
     title := SStr "A Foo Book";
     series_name := Some "Foo";
     series_position := Some position;
     author := Some (SStr "A. Writer");
     narrator := None;
     owned := true;
     listened := false;
     release_date := None;
     purchase_date := None;
     rating := None;
     length_minutes := None |}.

Definition foo_group (positions : list Qc) : string * list Audiobook :=
  ("Foo", foo_book <$> positions).

(** A numeric cell in the Series column. *)
Definition numeric_series_row : row :=
  {[ "Title" := SStr "Nineteen Eighty-Four"; "Series" := SNum (of_Z 1984) ]}.

(** ** Vocabulary of the further properties *)

(** What the schema promises: at most one row per ASIN ([asin TEXT
    UNIQUE]) and per id ([id INTEGER PRIMARY KEY]). *)
Definition table_consistent (d : database) : Prop :=
  NoDup (omap row_asin (audiobooks d)) /\ NoDup (row_id <$> audiobooks d).

(** The books at one position. *)
Definition at_position (q : Qc) (b : Audiobook) : bool :=
  bool_decide (position_key b = q).

Definition in_series (name : string) (b : Audiobook) : bool :=
  bool_decide (series_name b = Some name).

(** What [parseLibationExport] has in [seriesMap] after reading
    [books]: one entry per non-empty series name, holding the books of
    that series in sheet order. *)
Definition groups_books (books : list Audiobook) (m : series_map) : Prop :=
  NoDup (fst <$> m)
  /\ (forall name group, In (name, group) m ->
        name <> "" /\ group <> [] /\ group = List.filter (in_series name) books)
  /\ (forall b name, In b books -> series_name b = Some name -> name <> "" ->
        In name (fst <$> m)).

(** The series names the import counts: the distinct non-empty ones. *)
Definition series_names (books : list Audiobook) : list string :=
  remove_dups (List.filter (fun n => negb (bool_decide (n = "")))
                 (omap series_name books)).

(** The header names [AudibleManager] reads; it looks up Categories,
    Genre and Genres too but drops what it finds. *)
Definition known_columns : list string :=
  asin_columns ++ title_columns ++ author_columns ++ narrator_columns
  ++ series_columns ++ seriesPosition_columns ++ releaseDate_columns
  ++ purchaseDate_columns ++ length_columns ++ rating_columns.

(** A pattern whose last item is [$]. *)
Inductive anchored : regex -> Prop :=
  | anchored_end : anchored REnd
  | anchored_seq (a b : regex) : anchored b -> anchored (RSeq a b).

(** A pattern that consumes digits only, and one whose groups do. *)
Inductive digits_only : regex -> Prop :=
  | digits_char : digits_only (RChar is_digit)
  | digits_seq (a b : regex) : digits_only a -> digits_only b -> digits_only (RSeq a b)
  | digits_star (greedy : bool) (a : regex) : digits_only a -> digits_only (RStar greedy a)
  | digits_opt (a : regex) : digits_only a -> digits_only (ROpt a).

Inductive groups_digits : regex -> Prop :=
  | groups_char (p : ascii -> bool) : groups_digits (RChar p)
  | groups_seq (a b : regex) : groups_digits a -> groups_digits b -> groups_digits (RSeq a b)
  | groups_star (greedy : bool) (a : regex) : groups_digits a -> groups_digits (RStar greedy a)
  | groups_opt (a : regex) : groups_digits a -> groups_digits (ROpt a)
  | groups_group (n : nat) (a : regex) : digits_only a -> groups_digits (RGroup n a)
  | groups_end : groups_digits REnd.

Definition all_digits (l : list ascii) : Prop := Forall (fun c => is_digit c = true) l.

Definition captured_digits (c : captures) : Prop :=
  Forall (fun e => all_digits (chars (snd e))) c.

(** [status] and [display_title], which [getSeriesDetails] adds to each
    row. *)
Definition book_status (r : book_row) : string :=
  if row_owned r then (if row_listened r then "completed" else "owned") else "missing".

Definition book_display_title (r : book_row) : scalar :=
  match row_series_position r with
  | Some p =>
      if bool_decide (p = 0%Qc) then row_title r
      else SStr ("Book " +:+ number_to_string p +:+ ": " +:+ to_string (row_title r))
  | None => row_title r
  end.

Record series_detail : Type := mkDetail {
  detail_row : book_row;
  status : string;
  display_title : scalar
}.

(** [CASE WHEN series_position IS NULL THEN 999999 ELSE series_position END] *)
Definition details_key (r : book_row) : Qc :=
  default (of_Z 999999) (row_series_position r).

(** [ORDER BY <key>, title]; titles compare as text, byte by byte. *)
Definition details_order (a b : book_row) : Prop :=
  (details_key a < details_key b)%Qc
  \/ (details_key a = details_key b
      /\ String.le (to_string (row_title a)) (to_string (row_title b))).

Global Instance details_order_dec : RelDecision details_order.
Proof. intros a b. unfold details_order. apply _. Defined.

(** [SELECT * FROM audiobooks WHERE series_name = ? ORDER BY ...]. SQL
    leaves the order of rows that agree on both keys open; here they
    come out as the sort leaves them. *)
Definition select_series (seriesName : string) (d : database) : list book_row :=
  merge_sort details_order
    (List.filter (fun r => bool_decide (row_series_name r = Some seriesName))
       (audiobooks d)).

Definition getSeriesDetails (seriesName : string) (d : database) : list series_detail :=
  (fun book => mkDetail book (book_status book) (book_display_title book))
    <$> select_series seriesName d.

(** A shelf with a book at position 1000000, a book without position
    and a book at position 2. *)
Definition far_shelf : database :=
  mkDatabase
    [ to_row 1 (foo_book (of_Z 1000000));
      to_row 2 {| id := 0; asin := None; title := SStr "A Foo Novella";
                  series_name := Some "Foo"; series_position := None;
                  author := None; narrator := None; owned := true; listened := true;
                  release_date := None; purchase_date := None; rating := None;
                  length_minutes := None |};
      to_row 3 (placeholder "Foo" (of_Z 2) None) ] 3.


(** The Foo sheet once book 3 has been bought. *)
Definition foo_sheet_complete : list row :=
  foo_sheet ++ [foo_row "B003" "Foo Three" (of_Z 3)].

(** ** Where the arithmetic of the model is that of the source

    Numbers of the source are IEEE doubles. Up to
    [Number.MAX_SAFE_INTEGER] every whole number is a double, [pos + 1]
    and [pos++] are exact on whole numbers and [String] prints them in
    plain decimal notation; from 2^53 on [pos++] no longer advances and a
    loop that counts up to its bound never ends. The statements about
    what the loops visit are made where the counter stays in that
    range. *)
Definition MAX_SAFE_INTEGER : Z := 2 ^ 53 - 1.

Definition in_safe_range (q : Qc) : Prop :=
  (of_Z (- MAX_SAFE_INTEGER) ≤ q)%Qc /\ (q ≤ of_Z MAX_SAFE_INTEGER)%Qc.

(** [Number.isSafeInteger] *)
Definition isSafeInteger (q : Qc) : Prop :=
  is_integer q = true /\ in_safe_range q.

(** A position some record of the group has. *)
Definition known_position (books : list Audiobook) (p : Qc) : Prop :=
  exists b, In b books /\ series_position b = Some p.

(** The known positions of a group are whole numbers. *)
Definition whole_positions (books : list Audiobook) : Prop :=
  forall p, known_position books p -> isSafeInteger p.

(** No known position of the map is out of the range in which the
    loop counters advance: the run over the map ends. *)
Definition positions_in_safe_range (sm : series_map) : Prop :=
  forall name books p,
    In (name, books) sm -> known_position books p -> in_safe_range p.

(** What an [asin TEXT] column holds when the statement was given a
    string or nothing: text or NULL. On these the comparison of the
    bound values is the comparison SQLite makes. *)
Definition text_or_null (v : option scalar) : Prop :=
  match v with
  | None => True
  | Some (SStr _) => True
  | Some _ => False
  end.

Definition asins_are_text (d : database) : Prop :=
  Forall (fun r => text_or_null (row_asin r)) (audiobooks d).


(** * Properties *)

(** ** Arithmetic of positions *)

Lemma this_plus (x y : Qc) : (this (x + y)%Qc == this x + this y)%Q.
Proof. unfold Qcplus. simpl. apply Qred_correct. Qed.

Lemma this_minus (x y : Qc) : (this (x - y)%Qc == this x - this y)%Q.
Proof.
  unfold Qcminus, Qcplus, Qcopp. simpl.
  setoid_rewrite Qred_correct. setoid_rewrite Qred_correct. reflexivity.
Qed.

Lemma this_of_Z (z : Z) : (this (of_Z z) == inject_Z z)%Q.
Proof. unfold of_Z. simpl. apply Qred_correct. Qed.

(** Goals over [Qc] are handed to [lra] over [Q]: every compound term is
    named and kept with its defining equation. *)
Ltac name_this t E :=
  let H := fresh "E" in
  let v := fresh "v" in
  pose proof E as H; set (v := this t) in *; clearbody v.

Ltac to_Q :=
  unfold Qclt, Qcle in *;
  repeat match goal with
  | |- context [this (Qcminus ?x ?y)] => name_this (Qcminus x y) (this_minus x y)
  | _ : context [this (Qcminus ?x ?y)] |- _ => name_this (Qcminus x y) (this_minus x y)
  | |- context [this (Qcplus ?x ?y)] => name_this (Qcplus x y) (this_plus x y)
  | _ : context [this (Qcplus ?x ?y)] |- _ => name_this (Qcplus x y) (this_plus x y)
  | |- context [this (of_Z ?z)] => name_this (of_Z z) (this_of_Z z)
  | _ : context [this (of_Z ?z)] |- _ => name_this (of_Z z) (this_of_Z z)
  | |- context [this (Q2Qc 1)] => change (this (Q2Qc 1)) with 1%Q in *
  | _ : context [this (Q2Qc 1)] |- _ => change (this (Q2Qc 1)) with 1%Q in *
  end.

Lemma of_Z_succ (z : Z) : of_Z (z + 1) = (of_Z z + 1)%Qc.
Proof.
  apply Qc_is_canon.
  assert (inject_Z (z + 1) == inject_Z z + 1)%Q as H
    by (rewrite inject_Z_plus; reflexivity).
  to_Q. lra.
Qed.


Lemma inj_nat_nonneg (k : nat) : (0 <= inject_Z (Z.of_nat k))%Q.
Proof. change 0%Q with (inject_Z 0). rewrite <- Zle_Qle. lia. Qed.

Lemma inj_nat_succ (k : nat) :
  (inject_Z (Z.of_nat (S k)) == inject_Z (Z.of_nat k) + 1)%Q.
Proof. rewrite Nat2Z.inj_succ, <- Z.add_1_r, inject_Z_plus. reflexivity. Qed.

(** ** The counting loop *)

Lemma loop_fuel_enough (start bound : Qc) :
  (bound - start ≤ of_Z (Z.of_nat (loop_fuel start bound)))%Qc.
Proof.
  unfold loop_fuel.
  pose proof (Qle_ceiling (this (bound - start)%Qc)) as H.
  assert (inject_Z (Qceiling (this (bound - start)%Qc))
          <= inject_Z (Z.of_nat (Z.to_nat (Qceiling (this (bound - start)%Qc)))))%Q as H'
    by (rewrite <- Zle_Qle; lia).
  to_Q. lra.
Qed.

(** With fuel for the whole distance the loop visits [pos], [pos + 1],
    ... as long as they stay below the bound, and nothing else. *)
Lemma count_from_spec (fuel : nat) (bound : Qc) : forall pos : Qc,
  (bound - pos ≤ of_Z (Z.of_nat fuel))%Qc ->
  forall p, In p (count_from fuel pos bound) <->
            (p < bound)%Qc /\ exists k : nat, p = (pos + of_Z (Z.of_nat k))%Qc.
Proof.
  induction fuel as [|fuel IH]; intros pos Hfuel p; simpl.
  - split; [tauto|]. intros [Hp [k ->]].
    pose proof (inj_nat_nonneg k). change (inject_Z (Z.of_nat 0)) with 0%Q in *.
    to_Q. change (inject_Z (Z.of_nat 0)) with 0%Q in *. lra.
  - pose proof (inj_nat_succ fuel) as Hs.
    destruct (decide (pos < bound)%Qc) as [Hlt|Hge].
    + simpl. rewrite IH.
      * split.
        -- intros [<-|[Hp [k ->]]].
           ++ split; [exact Hlt|]. exists 0%nat. apply Qc_is_canon.
              to_Q. change (inject_Z (Z.of_nat 0)) with 0%Q in *. lra.
           ++ split; [exact Hp|]. exists (S k). apply Qc_is_canon.
              pose proof (inj_nat_succ k). to_Q. lra.
        -- intros [Hp [[|k] ->]].
           ++ left. apply Qc_is_canon.
              to_Q. change (inject_Z (Z.of_nat 0)) with 0%Q in *. lra.
           ++ right. pose proof (inj_nat_succ k). split.
              ** to_Q. lra.
              ** exists k. apply Qc_is_canon. to_Q. lra.
      * to_Q. lra.
    + split; [intros []|]. intros [Hp [k ->]]. exfalso. apply Hge.
      pose proof (inj_nat_nonneg k). to_Q. lra.
Qed.

Lemma for_positions_spec (start bound p : Qc) :
  In p (for_positions start bound) <->
  (p < bound)%Qc /\ exists k : nat, p = (start + of_Z (Z.of_nat k))%Qc.
Proof. apply count_from_spec, loop_fuel_enough. Qed.

Lemma this_of_Z_eq (z : Z) : this (of_Z z) = inject_Z z.
Proof. unfold of_Z. simpl. apply Qred_identity. simpl. apply Z.gcd_1_r. Qed.

Lemma is_integer_of_Z (z : Z) : is_integer (of_Z z) = true.
Proof. unfold is_integer. now rewrite this_of_Z_eq. Qed.

Lemma integer_is_of_Z (q : Qc) : is_integer q = true -> q = of_Z (Qnum q).
Proof.
  unfold is_integer. intros H. apply Pos.eqb_eq in H.
  apply Qc_is_canon. rewrite this_of_Z_eq.
  destruct q as [[n d] Hc]. simpl in *. subst d. reflexivity.
Qed.

Lemma of_Z_plus (a b : Z) : of_Z (a + b) = (of_Z a + of_Z b)%Qc.
Proof.
  apply Qc_is_canon.
  assert (inject_Z (a + b) == inject_Z a + inject_Z b)%Q as H
    by (rewrite inject_Z_plus; reflexivity).
  to_Q. lra.
Qed.

Lemma is_integer_plus (q : Qc) (z : Z) :
  is_integer q = true -> is_integer (q + of_Z z)%Qc = true.
Proof.
  intros H. rewrite (integer_is_of_Z q H), <- of_Z_plus. apply is_integer_of_Z.
Qed.

(** Stepping by whole numbers keeps a position whole, and keeps a
    fractional position fractional. *)
Lemma is_integer_shift (q : Qc) (z : Z) :
  is_integer (q + of_Z z)%Qc = is_integer q.
Proof.
  destruct (is_integer q) eqn:Hq; [now apply is_integer_plus|].
  destruct (is_integer (q + of_Z z)%Qc) eqn:Hs; [|reflexivity].
  apply (is_integer_plus _ (- z)) in Hs.
  replace (q + of_Z z + of_Z (- z))%Qc with q in Hs; [congruence|].
  apply Qc_is_canon.
  assert (inject_Z (- z) == - inject_Z z)%Q as H
    by (rewrite inject_Z_opp; reflexivity).
  to_Q. lra.
Qed.

(** ** Sorting by position *)

Lemma insert_sorted_perm (a : Audiobook) (l : list Audiobook) :
  Permutation (insert_sorted a l) (a :: l).
Proof.
  induction l as [|b l IH]; simpl; [reflexivity|].
  destruct (comes_first a b); [reflexivity|].
  rewrite IH. apply perm_swap.
Qed.

Lemma sort_by_position_perm (l : list Audiobook) :
  Permutation (sort_by_position l) l.
Proof.
  induction l as [|a l IH]; simpl; [reflexivity|].
  rewrite insert_sorted_perm. now constructor.
Qed.

Lemma insert_sorted_sorted (a : Audiobook) (l : list Audiobook) :
  StronglySorted by_position l -> StronglySorted by_position (insert_sorted a l).
Proof.
  induction 1 as [|b l Hl IH Hb]; simpl.
  - repeat constructor.
  - unfold comes_first. case_bool_decide as Hab.
    + constructor; [now constructor|]. constructor; [exact Hab|].
      eapply Forall_impl; [exact Hb|]. intros c Hc. unfold by_position in *.
      eapply Qcle_trans; eassumption.
    + constructor; [exact IH|].
      eapply Permutation_Forall; [symmetry; apply insert_sorted_perm|].
      constructor; [|exact Hb].
      unfold by_position. apply Qclt_le_weak. now apply Qcnot_le_lt.
Qed.

Lemma sort_by_position_sorted (l : list Audiobook) :
  StronglySorted by_position (sort_by_position l).
Proof.
  induction l as [|a l IH]; simpl; [constructor|].
  now apply insert_sorted_sorted.
Qed.

Lemma sortedBooks_length (books : list Audiobook) :
  length (sortedBooks books) = length (List.filter has_position books).
Proof. unfold sortedBooks. apply Permutation_length, sort_by_position_perm. Qed.


(** The sorted positions are the known positions of the group. *)
Lemma sorted_positions_known (books : list Audiobook) (p : Qc) :
  In p (sorted_positions books) <->
  exists b, In b books /\ series_position b = Some p.
Proof.
  unfold sorted_positions, sortedBooks. rewrite <- list_elem_of_In, list_elem_of_fmap.
  split.
  - intros (b & -> & Hb). exists b.
    rewrite (sort_by_position_perm _) in Hb.
    apply list_elem_of_In, filter_In in Hb. destruct Hb as [Hb Hp].
    split; [exact Hb|]. unfold has_position, position_key in *.
    destruct (series_position b); [reflexivity|discriminate].
  - intros (b & Hb & Hp). exists b. split.
    + unfold position_key. now rewrite Hp.
    + rewrite (sort_by_position_perm _). apply list_elem_of_In, filter_In.
      split; [exact Hb|]. unfold has_position. now rewrite Hp.
Qed.

Lemma sorted_positions_ascending (books : list Audiobook) :
  StronglySorted Qcle (sorted_positions books).
Proof.
  unfold sorted_positions, sortedBooks.
  induction (sort_by_position_sorted (List.filter has_position books))
    as [|b l Hl IH Hb]; simpl; constructor; [exact IH|].
  apply Forall_fmap. exact Hb.
Qed.

(** The head of the sorted positions is the smallest known position. *)
Lemma first_position_smallest (books : list Audiobook) (m : Qc) :
  (exists b, In b books /\ series_position b = Some m) ->
  (forall b p, In b books -> series_position b = Some p -> (m ≤ p)%Qc) ->
  exists rest, sorted_positions books = m :: rest.
Proof.
  intros Hm Hmin. apply sorted_positions_known in Hm.
  pose proof (sorted_positions_ascending books) as Hs.
  destruct (sorted_positions books) as [|f rest] eqn:E; [destruct Hm|].
  exists rest. f_equal.
  assert (In f (sorted_positions books)) as Hf by (rewrite E; now left).
  apply sorted_positions_known in Hf. destruct Hf as (b & Hb & Hp).
  apply Qcle_antisym.
  - inversion Hs as [|? ? _ Hall]; subst.
    destruct Hm as [->|Hm]; [apply Qcle_refl|].
    rewrite Forall_forall in Hall. apply Hall. now apply list_elem_of_In.
  - eapply Hmin; eassumption.
Qed.

(** Whenever a group asks for placeholders at all, both guards were
    passed. *)
Lemma missing_positions_guarded (books : list Audiobook) :
  (2 <= length (List.filter has_position books))%nat ->
  missing_positions books
  = interior_gaps (sorted_positions books) ++ leading_gap (sorted_positions books).
Proof.
  intros H. unfold missing_positions.
  pose proof (filter_length_le has_position books) as Hle.
  rewrite sortedBooks_length.
  destruct (Nat.ltb_spec (length books) 2); [lia|].
  destruct (Nat.ltb_spec (length (List.filter has_position books)) 2); [lia|].
  reflexivity.
Qed.

(** ** Rows written by the reconciliation *)

Lemma filter_all {A} (f : A -> bool) (l : list A) :
  (forall x, f x = true) -> List.filter f l = l.
Proof.
  intros Hf. induction l as [|x l IH]; simpl; [reflexivity|].
  rewrite Hf. now f_equal.
Qed.

(** A record without an ASIN never replaces anything: it is appended. *)
Lemma upsert_without_asin (b : Audiobook) (d : database) :
  asin b = None ->
  audiobooks (snd (upsertAudiobook b d))
  = audiobooks d ++ [to_row (next_rowid d) b].
Proof.
  intros Hb. unfold upsertAudiobook. simpl. rewrite Hb. f_equal.
  apply filter_all. intros r. reflexivity.
Qed.

Lemma add_placeholders_rows (name : string) (a : option scalar) (ps : list Qc) :
  forall d : database, exists news,
    audiobooks (add_placeholders name a ps d) = audiobooks d ++ news
    /\ Forall2 stored_as ((fun p => placeholder name p a) <$> ps) news.
Proof.
  unfold add_placeholders.
  induction ps as [|p ps IH]; intros d; simpl.
  - exists []. split; [now rewrite app_nil_r | constructor].
  - destruct (IH (addMissingBookPlaceholder name p a d)) as (news & Hrows & Hall).
    exists (to_row (next_rowid d) (placeholder name p a) :: news). split.
    + rewrite Hrows. unfold addMissingBookPlaceholder.
      rewrite upsert_without_asin by reflexivity. now rewrite <- app_assoc.
    + constructor; [now eexists | exact Hall].
Qed.

(** The reconciliation appends one row per requested placeholder, in
    the order of the requests, and touches no other row. *)
Lemma detect_rows (sm : series_map) :
  forall d : database, exists news,
    audiobooks (detectMissingSeriesBooks sm d) = audiobooks d ++ news
    /\ Forall2 stored_as (all_placeholders sm) news.
Proof.
  unfold detectMissingSeriesBooks, all_placeholders.
  induction sm as [|[name books] sm IH]; intros d; simpl.
  - exists []. split; [now rewrite app_nil_r | constructor].
  - destruct (add_placeholders_rows name (first_author books)
                (missing_positions books) d) as (n1 & H1 & A1).
    destruct (IH (add_placeholders name (first_author books)
                    (missing_positions books) d)) as (n2 & H2 & A2).
    exists (n1 ++ n2). split.
    + rewrite H2, H1. now rewrite <- app_assoc.
    + apply Forall2_app; assumption.
Qed.

Lemma placeholder_stored (sm : series_map) (d : database) (b : Audiobook) :
  In b (all_placeholders sm) ->
  exists r, In r (audiobooks (detectMissingSeriesBooks sm d)) /\ stored_as b r.
Proof.
  intros Hb. destruct (detect_rows sm d) as (news & Hrows & Hall).
  apply list_elem_of_In in Hb.
  destruct (proj1 (list_elem_of_lookup _ _) Hb) as [i Hi].
  destruct (Forall2_lookup_l _ _ _ _ _ Hall Hi) as (r & Hr & Hs).
  exists r. split; [|exact Hs].
  rewrite Hrows. apply in_or_app. right.
  apply list_elem_of_In. eapply list_elem_of_lookup_2. exact Hr.
Qed.

Lemma stored_placeholder_row (name : string) (p : Qc) (a : option scalar)
    (r : book_row) :
  stored_as (placeholder name p a) r -> placeholder_row name p a r.
Proof. intros [i ->]. repeat split. Qed.

(** A missing position of a group of the map ends up as a placeholder
    row of the table. *)
Lemma missing_position_stored (sm : series_map) (d : database)
    (name : string) (books : list Audiobook) (p : Qc) :
  In (name, books) sm ->
  In p (missing_positions books) ->
  exists r, In r (audiobooks (detectMissingSeriesBooks sm d))
            /\ placeholder_row name p (first_author books) r.
Proof.
  intros Hg Hp.
  destruct (placeholder_stored sm d (placeholder name p (first_author books)))
    as (r & Hr & Hs).
  - unfold all_placeholders. apply in_concat.
    exists (series_placeholders (name, books)). split.
    + apply in_map. exact Hg.
    + unfold series_placeholders. simpl.
      apply (in_map (fun pos => placeholder name pos (first_author books))). exact Hp.
  - exists r. split; [exact Hr|]. now apply stored_placeholder_row.
Qed.

(** ** Gaps *)


Lemma interior_gaps_only (positions : list Qc) (p : Qc) :
  In p (interior_gaps positions) ->
  exists before current next after,
    positions = before ++ current :: next :: after
    /\ (1 < next - current)%Qc
    /\ In p (for_positions (current + 1)%Qc next).
Proof.
  induction positions as [|c rest IH]; simpl; [intros []|].
  destruct rest as [|n rest']; [intros []|].
  intros Hp. apply in_app_or in Hp. destruct Hp as [Hp|Hp].
  - destruct (decide (1 < n - c)%Qc) as [Hgap|]; [|destruct Hp].
    exists [], c, n, rest'. repeat split; assumption.
  - destruct (IH Hp) as (before & current & next & after & E & Hgap & Hin).
    exists (c :: before), current, next, after. rewrite E. repeat split; assumption.
Qed.


(** C5: a series group with fewer than two records, or with fewer than
    two records that carry a position, asks for no placeholder: the
    reconciliation leaves the table as it is. *)
Theorem small_group_skipped (name : string) (books : list Audiobook) (d : database) :
  (length books < 2)%nat \/ (length (List.filter has_position books) < 2)%nat ->
  missing_positions books = []
  /\ series_placeholders (name, books) = []
  /\ detectMissingSeriesBooks [(name, books)] d = d.
Proof.
  intros H.
  assert (missing_positions books = []) as E.
  { unfold missing_positions. rewrite sortedBooks_length.
    destruct (Nat.ltb_spec (length books) 2); [reflexivity|].
    destruct (Nat.ltb_spec (length (List.filter has_position books)) 2);
      [reflexivity|lia]. }
  split; [exact E|]. split.
  - unfold series_placeholders. simpl. now rewrite E.
  - unfold detectMissingSeriesBooks, detect_series. simpl. now rewrite E.
Qed.

(** A series with a single record at position 2 produces no placeholder. *)
Lemma small_group_skipped_witness :
  missing_positions [foo_book (of_Z 2)] = []
  /\ series_placeholders ("Foo", [foo_book (of_Z 2)]) = []
  /\ detectMissingSeriesBooks [("Foo", [foo_book (of_Z 2)])] empty_database
     = empty_database.
Proof.
  apply (small_group_skipped "Foo" [foo_book (of_Z 2)] empty_database).
  left. simpl. lia.
Defined.

Lemma missing_positions_first (books : list Audiobook) (p : Qc) :
  In p (missing_positions books) ->
  exists first rest, books = first :: rest /\ first_author books = author first.
Proof.
  unfold missing_positions. destruct books as [|first rest]; simpl.
  - intros [].
  - intros _. now exists first, rest.
Qed.

Lemma all_placeholders_origin (sm : series_map) (b : Audiobook) :
  In b (all_placeholders sm) ->
  exists name books p,
    In (name, books) sm
    /\ In p (missing_positions books)
    /\ b = placeholder name p (first_author books).
Proof.
  unfold all_placeholders. intros Hb. apply in_concat in Hb.
  destruct Hb as (l & Hl & Hb). apply in_map_iff in Hl.
  destruct Hl as ([name books] & <- & Hg).
  unfold series_placeholders in Hb. simpl in Hb.
  apply (in_map_iff (fun pos => placeholder name pos (first_author books))) in Hb.
  destruct Hb as (p & <- & Hp). now exists name, books, p.
Qed.

(** C6: every row the reconciliation writes is a placeholder row: not
    owned, not listened, without ASIN, dates, rating or length, titled
    ["<seriesName> Book <position>"], and carrying the author of the
    first record of its series group. The object literal of
    [EnhancedAudibleManager] has the same shape. *)
Theorem reconciliation_writes_placeholders (sm : series_map) (d : database) :
  (exists news,
     audiobooks (detectMissingSeriesBooks sm d) = audiobooks d ++ news
     /\ Forall (fun r =>
          exists name books first rest position,
            In (name, books) sm
            /\ books = first :: rest
            /\ placeholder_row name position (author first) r) news)
  /\ (forall name position a,
        let e := Enhanced.placeholder name position a in
        Enhanced.owned e = false
        /\ Enhanced.listened e = false
        /\ Enhanced.asin e = None
        /\ Enhanced.release_date e = None
        /\ Enhanced.purchase_date e = None
        /\ Enhanced.rating e = None
        /\ Enhanced.length_minutes e = None
        /\ Enhanced.title e
           = SStr (name +:+ " Book " +:+ number_to_string position)
        /\ Enhanced.author e = a).
Proof.
  split.
  - destruct (detect_rows sm d) as (news & Hrows & Hall).
    exists news. split; [exact Hrows|].
    apply Forall_forall. intros r Hr.
    destruct (proj1 (list_elem_of_lookup _ _) Hr) as [i Hi].
    destruct (Forall2_lookup_r _ _ _ _ _ Hall Hi) as (b & Hb & Hs).
    apply list_elem_of_lookup_2, list_elem_of_In in Hb.
    destruct (all_placeholders_origin sm b Hb) as (name & books & p & Hg & Hp & ->).
    destruct (missing_positions_first books p Hp) as (first & rest & E & Ha).
    exists name, books, first, rest, p.
    split; [exact Hg|]. split; [exact E|].
    rewrite <- Ha. now apply stored_placeholder_row.
  - intros name position a. simpl. repeat split.
Qed.

(** ** Which positions the loops visit *)

Lemma Qceiling_unique (x : Q) (z : Z) :
  (inject_Z (z - 1) < x)%Q -> (x <= inject_Z z)%Q -> Qceiling x = z.
Proof.
  intros Hlo Hhi.
  pose proof (Qceiling_lt x) as H1. pose proof (Qle_ceiling x) as H2.
  assert (Qceiling x - 1 < z)%Z by (rewrite Zlt_Qlt; lra).
  assert (z - 1 < Qceiling x)%Z by (rewrite Zlt_Qlt; lra).
  lia.
Qed.

Lemma count_from_bounds (fuel : nat) (bound : Qc) : forall pos p : Qc,
  In p (count_from fuel pos bound) -> (pos ≤ p)%Qc /\ (p < bound)%Qc.
Proof.
  induction fuel as [|fuel IH]; intros pos p; cbn [count_from]; [intros []|].
  destruct (decide (pos < bound)%Qc) as [Hlt|]; [|intros []].
  intros [<-|H]; [split; [apply Qcle_refl|exact Hlt]|].
  apply IH in H. destruct H as [H1 H2]. split; [|exact H2].
  revert H1. to_Q. lra.
Qed.

Lemma count_from_increasing (fuel : nat) (bound : Qc) : forall pos : Qc,
  StronglySorted Qclt (count_from fuel pos bound).
Proof.
  induction fuel as [|fuel IH]; intros pos; cbn [count_from]; [constructor|].
  destruct (decide (pos < bound)%Qc); [|constructor].
  constructor; [apply IH|]. apply Forall_forall. intros p Hp.
  apply list_elem_of_In, count_from_bounds in Hp. destruct Hp as [Hp _].
  revert Hp. to_Q. lra.
Qed.

Lemma interior_gaps_above (c : Qc) (rest : list Qc) (p : Qc) :
  StronglySorted Qcle (c :: rest) ->
  In p (interior_gaps (c :: rest)) -> (c < p)%Qc.
Proof.
  revert c. induction rest as [|n rest IH]; intros c Hs; cbn [interior_gaps]; [intros []|].
  intros Hp. apply in_app_or in Hp.
  apply StronglySorted_inv in Hs. destruct Hs as [Hs Hc].
  destruct Hp as [Hp|Hp].
  - destruct (decide (1 < n - c)%Qc); [|destruct Hp].
    apply count_from_bounds in Hp. destruct Hp as [Hp _]. revert Hp. to_Q. lra.
  - apply (IH n Hs) in Hp. apply Forall_inv in Hc. revert Hc Hp. to_Q. lra.
Qed.

Lemma interior_gaps_increasing (l : list Qc) :
  StronglySorted Qcle l -> StronglySorted Qclt (interior_gaps l).
Proof.
  induction l as [|c rest IH]; intros Hs; cbn [interior_gaps]; [constructor|].
  destruct rest as [|n rest]; [constructor|].
  pose proof (StronglySorted_inv Hs) as [Hs' _].
  apply StronglySorted_app_2; [| |now apply IH].
  - intros x y Hx Hy. apply list_elem_of_In in Hx, Hy.
    apply (interior_gaps_above n rest y Hs') in Hy.
    destruct (decide (1 < n - c)%Qc); [|destruct Hx].
    apply count_from_bounds in Hx. destruct Hx as [_ Hx].
    revert Hx Hy. to_Q. lra.
  - destruct (decide (1 < n - c)%Qc); [apply count_from_increasing|constructor].
Qed.

Lemma increasing_NoDup (l : list Qc) : StronglySorted Qclt l -> NoDup l.
Proof.
  induction 1 as [|x l Hl IH Hx]; constructor; [|exact IH].
  intros Hin. rewrite Forall_forall in Hx. apply Hx in Hin.
  now apply Qclt_not_eq in Hin.
Qed.

Lemma interior_gaps_unknown (l : list Qc) (p : Qc) :
  StronglySorted Qcle l -> In p (interior_gaps l) -> ~ In p l.
Proof.
  intros Hs Hp Hin.
  destruct (interior_gaps_only l p Hp) as (before & c & n & after & -> & _ & Hfor).
  apply count_from_bounds in Hfor. destruct Hfor as [Hlo Hhi].
  apply in_app_or in Hin. destruct Hin as [Hin|[<-|[<-|Hin]]].
  - assert (p ≤ c)%Qc as H.
    { eapply (StronglySorted_app_1_elem_of _ before (c :: n :: after));
        [exact Hs| now apply list_elem_of_In | now left]. }
    revert Hlo H. to_Q. lra.
  - revert Hlo. to_Q. lra.
  - revert Hhi. to_Q. lra.
  - apply StronglySorted_app_1_r in Hs. apply StronglySorted_inv in Hs.
    destruct Hs as [Hs _]. apply StronglySorted_inv in Hs. destruct Hs as [_ Hn].
    rewrite Forall_forall in Hn. apply list_elem_of_In, Hn in Hin.
    revert Hhi Hin. to_Q. lra.
Qed.

Lemma leading_gap_below (l : list Qc) (p x : Qc) :
  StronglySorted Qcle l -> In p (leading_gap l) -> In x l ->
  (1 ≤ p)%Qc /\ (p < x)%Qc.
Proof.
  destruct l as [|f rest]; cbn [leading_gap]; [intros _ []|].
  intros Hs Hp Hx. destruct (decide (1 < f)%Qc); [|destruct Hp].
  apply count_from_bounds in Hp. destruct Hp as [Hlo Hhi]. split; [exact Hlo|].
  destruct Hx as [<-|Hx]; [exact Hhi|].
  apply StronglySorted_inv in Hs. destruct Hs as [_ Hf].
  rewrite Forall_forall in Hf. apply list_elem_of_In, Hf in Hx.
  revert Hhi Hx. to_Q. lra.
Qed.

(** ** Loops over whole numbers *)

Lemma of_Z_le (a b : Z) : (of_Z a ≤ of_Z b)%Qc <-> (a <= b)%Z.
Proof. rewrite Zle_Qle. to_Q. split; lra. Qed.

Lemma of_Z_inj (a b : Z) : of_Z a = of_Z b -> a = b.
Proof.
  intros H. apply Z.le_antisymm; apply of_Z_le; rewrite H; apply Qcle_refl.
Qed.

Lemma Qceiling_of_Z (z : Z) : Qceiling (of_Z z) = z.
Proof. rewrite this_of_Z_eq. apply Qceiling_Z. Qed.

(** A whole number is below a bound exactly when it is below the
    bound rounded up. *)
Lemma of_Z_lt_ceiling (a : Z) (bound : Qc) :
  (of_Z a < bound)%Qc <-> (a < Qceiling bound)%Z.
Proof.
  pose proof (Qceiling_lt bound) as H1. pose proof (Qle_ceiling bound) as H2.
  split.
  - intros H. rewrite Zlt_Qlt. revert H. to_Q. lra.
  - intros H. assert (a <= Qceiling bound - 1)%Z as H' by lia.
    rewrite Zle_Qle in H'. to_Q. lra.
Qed.

Lemma count_from_whole (fuel : nat) (bound : Qc) : forall a : Z,
  (Z.to_nat (Qceiling bound - a) <= fuel)%nat ->
  count_from fuel (of_Z a) bound = of_Z <$> seqZ a (Qceiling bound - a).
Proof.
  induction fuel as [|fuel IH]; intros a Hfuel; cbn [count_from].
  - rewrite seqZ_nil by lia. reflexivity.
  - destruct (decide (of_Z a < bound)%Qc) as [Hlt|Hge].
    + apply of_Z_lt_ceiling in Hlt.
      rewrite (seqZ_cons a) by lia. rewrite fmap_cons. f_equal.
      rewrite <- of_Z_succ, IH by lia. do 2 f_equal; lia.
    + rewrite of_Z_lt_ceiling in Hge. rewrite seqZ_nil by lia. reflexivity.
Qed.

Lemma Qceiling_minus_of_Z (bound : Qc) (a : Z) :
  Qceiling (bound - of_Z a)%Qc = (Qceiling bound - a)%Z.
Proof.
  pose proof (Qceiling_lt bound) as H1. pose proof (Qle_ceiling bound) as H2.
  assert (inject_Z (Qceiling bound - 1) == inject_Z (Qceiling bound) - 1)%Q as H3
    by (unfold Z.sub; rewrite inject_Z_plus; reflexivity).
  apply Qceiling_unique.
  - assert (inject_Z (Qceiling bound - a - 1) == inject_Z (Qceiling bound) - inject_Z a - 1)%Q as ->
      by (unfold Z.sub; rewrite !inject_Z_plus, inject_Z_opp; reflexivity).
    to_Q. lra.
  - assert (inject_Z (Qceiling bound - a) == inject_Z (Qceiling bound) - inject_Z a)%Q as ->
      by (unfold Z.sub; rewrite inject_Z_plus, inject_Z_opp; reflexivity).
    to_Q. lra.
Qed.

(** Started at a whole number, the loop visits the whole numbers from
    the start up to, but not including, the bound, in ascending order. *)
Lemma for_positions_whole (a : Z) (bound : Qc) :
  for_positions (of_Z a) bound = of_Z <$> seqZ a (Qceiling bound - a).
Proof.
  unfold for_positions, loop_fuel. apply count_from_whole.
  rewrite Qceiling_minus_of_Z. lia.
Qed.

Lemma safe_integer_of_Z (q : Qc) :
  isSafeInteger q ->
  exists z : Z, q = of_Z z /\ (- MAX_SAFE_INTEGER <= z <= MAX_SAFE_INTEGER)%Z.
Proof.
  intros [Hi [Hlo Hhi]]. exists (Qnum q).
  rewrite (integer_is_of_Z q Hi) in Hlo, Hhi.
  apply (proj1 (of_Z_le _ _)) in Hlo. apply (proj1 (of_Z_le _ _)) in Hhi.
  split; [now apply integer_is_of_Z | lia].
Qed.

Lemma of_Z_safe (z : Z) :
  (- MAX_SAFE_INTEGER <= z <= MAX_SAFE_INTEGER)%Z -> isSafeInteger (of_Z z).
Proof.
  intros [Hlo Hhi]. split; [apply is_integer_of_Z|].
  split; now apply of_Z_le.
Qed.

Lemma in_of_Z_seqZ (p : Qc) (a n : Z) :
  In p (of_Z <$> seqZ a n) <-> exists z : Z, p = of_Z z /\ (a <= z < a + n)%Z.
Proof.
  rewrite <- list_elem_of_In, list_elem_of_fmap. split.
  - intros (z & -> & Hz). apply elem_of_seqZ in Hz. now exists z.
  - intros (z & -> & Hz). exists z. split; [reflexivity|]. now apply elem_of_seqZ.
Qed.

(** The loop before the first book visits 1, 2, ... up to, but not
    including, the first position. *)
Lemma leading_gap_whole (firstPos : Qc) (rest : list Qc) :
  leading_gap (firstPos :: rest) = of_Z <$> seqZ 1 (Qceiling firstPos - 1).
Proof.
  cbn [leading_gap]. destruct (decide (1 < firstPos)%Qc) as [Hlt|Hge].
  - change 1%Qc with (of_Z 1). apply for_positions_whole.
  - change 1%Qc with (of_Z 1) in Hge. rewrite of_Z_lt_ceiling in Hge.
    rewrite seqZ_nil by lia. reflexivity.
Qed.

(** The loop between two whole positions visits the whole numbers
    strictly between them. *)
Lemma pair_gap_whole (current next : Z) :
  for_positions (of_Z current + 1)%Qc (of_Z next)
  = of_Z <$> seqZ (current + 1) (next - current - 1).
Proof.
  rewrite <- of_Z_succ, for_positions_whole, Qceiling_of_Z.
  do 2 f_equal. lia.
Qed.

Lemma gap_guard_whole (current next : Z) :
  (1 < of_Z next - of_Z current)%Qc <-> (1 < next - current)%Z.
Proof.
  rewrite Zlt_Qlt.
  assert (inject_Z (next - current) == inject_Z next - inject_Z current)%Q as ->
    by (unfold Z.sub; rewrite inject_Z_plus, inject_Z_opp; reflexivity).
  change (inject_Z 1) with 1%Q. to_Q. split; lra.
Qed.

(** Among whole positions every position of an interior gap is a whole
    number strictly between two neighbours more than 1 apart. *)
Lemma interior_gaps_whole (positions : list Qc) (p : Qc) :
  Forall isSafeInteger positions ->
  In p (interior_gaps positions) ->
  exists (c n z : Z) (l1 l2 : list Qc),
    positions = l1 ++ of_Z c :: of_Z n :: l2
    /\ (1 < n - c)%Z
    /\ p = of_Z z
    /\ (c < z < n)%Z.
Proof.
  intros Hwhole Hp.
  destruct (interior_gaps_only positions p Hp)
    as (l1 & current & next & l2 & E & Hgap & Hin).
  rewrite E in Hwhole. apply Forall_app in Hwhole. destruct Hwhole as [_ Hwhole].
  apply Forall_cons in Hwhole. destruct Hwhole as [Hc Hwhole].
  apply Forall_cons in Hwhole. destruct Hwhole as [Hn _].
  destruct (safe_integer_of_Z current Hc) as (c & -> & _).
  destruct (safe_integer_of_Z next Hn) as (n & -> & _).
  rewrite pair_gap_whole in Hin. apply in_of_Z_seqZ in Hin.
  destruct Hin as (z & -> & Hz).
  exists c, n, z, l1, l2. split; [exact E|].
  split; [now apply gap_guard_whole|]. split; [reflexivity|lia].
Qed.

Lemma whole_sorted_positions (books : list Audiobook) :
  whole_positions books -> Forall isSafeInteger (sorted_positions books).
Proof.
  intros Hwhole. apply Forall_forall. intros p Hp.
  apply Hwhole. now apply sorted_positions_known, list_elem_of_In.
Qed.

(** The placeholders asked for among whole positions are at whole
    positions again, in the same range. *)
Lemma missing_positions_whole (books : list Audiobook) :
  whole_positions books -> Forall isSafeInteger (missing_positions books).
Proof.
  intros Hwhole. apply whole_sorted_positions in Hwhole. unfold missing_positions.
  destruct (length books <? 2)%nat; [constructor|].
  destruct (length (sortedBooks books) <? 2)%nat; [constructor|].
  apply Forall_app. split; apply Forall_forall; intros p Hp; apply list_elem_of_In in Hp.
  - destruct (interior_gaps_whole _ p Hwhole Hp)
      as (c & n & z & l1 & l2 & E & _ & -> & Hz).
    rewrite E in Hwhole. apply Forall_app in Hwhole. destruct Hwhole as [_ Hwhole].
    apply Forall_cons in Hwhole. destruct Hwhole as [Hc Hwhole].
    apply Forall_cons in Hwhole. destruct Hwhole as [Hn _].
    destruct (safe_integer_of_Z _ Hc) as (c' & Ec & Hc').
    destruct (safe_integer_of_Z _ Hn) as (n' & En & Hn').
    apply of_Z_inj in Ec, En. subst c' n'. apply of_Z_safe. lia.
  - destruct (sorted_positions books) as [|f rest]; [destruct Hp|].
    rewrite leading_gap_whole in Hp. apply in_of_Z_seqZ in Hp.
    destruct Hp as (z & -> & Hz).
    apply Forall_cons in Hwhole. destruct Hwhole as [Hf _].
    destruct (safe_integer_of_Z _ Hf) as (f' & -> & Hf').
    rewrite Qceiling_of_Z in Hz. apply of_Z_safe. unfold MAX_SAFE_INTEGER in *. lia.
Qed.

(** C4: in a run that ends, a group with at least two positioned
    records whose smallest known position is above 1 gets a placeholder
    at every whole position from 1 up to, but not including, the
    smallest position: the loop before the first book asks for exactly
    these, in ascending order, each is stored as a placeholder row, and
    no other placeholder of the group lies at or below the smallest
    position. *)
Theorem leading_gap_placeholders (sm : series_map) (d : database)
    (name : string) (books : list Audiobook) (smallest : Qc) :
  In (name, books) sm ->
  positions_in_safe_range sm ->
  (2 <= length (List.filter has_position books))%nat ->
  known_position books smallest ->
  (forall p, known_position books p -> (smallest ≤ p)%Qc) ->
  (1 < smallest)%Qc ->
  leading_gap (sorted_positions books) = of_Z <$> seqZ 1 (Qceiling smallest - 1)
  /\ (forall z : Z, (1 <= z)%Z -> (of_Z z < smallest)%Qc ->
        In (of_Z z) (missing_positions books)
        /\ exists r, In r (audiobooks (detectMissingSeriesBooks sm d))
                     /\ placeholder_row name (of_Z z) (first_author books) r)
  /\ (forall p, In p (missing_positions books) -> (p ≤ smallest)%Qc ->
        exists z : Z, p = of_Z z /\ (1 <= z)%Z /\ (of_Z z < smallest)%Qc).
Proof.
  intros Hg _ Htwo Hm Hmin Hone.
  destruct (first_position_smallest books smallest Hm
              (fun b p Hb Hp => Hmin p (ex_intro _ b (conj Hb Hp)))) as [rest E].
  pose proof (sorted_positions_ascending books) as Hs.
  rewrite missing_positions_guarded by exact Htwo.
  rewrite E in *. rewrite leading_gap_whole.
  split; [reflexivity|]. split.
  - intros z Hz Hlt.
    assert (In (of_Z z) (interior_gaps (smallest :: rest)
                         ++ (of_Z <$> seqZ 1 (Qceiling smallest - 1)))) as Hin.
    { apply in_or_app. right. apply in_of_Z_seqZ. exists z.
      split; [reflexivity|]. apply of_Z_lt_ceiling in Hlt. lia. }
    split; [exact Hin|].
    apply missing_position_stored; [exact Hg|].
    rewrite missing_positions_guarded by exact Htwo.
    rewrite E, leading_gap_whole. exact Hin.
  - intros p Hp Hle. apply in_app_or in Hp. destruct Hp as [Hp|Hp].
    + apply (interior_gaps_above smallest rest p Hs) in Hp.
      exfalso. revert Hp Hle. to_Q. lra.
    + apply in_of_Z_seqZ in Hp. destruct Hp as (z & -> & Hz).
      exists z. split; [reflexivity|]. split; [lia|].
      apply of_Z_lt_ceiling. lia.
Qed.

(** The sheet lists book 4 before book 3: placeholders are asked for at
    exactly 1 and 2, both are stored, and none at 3. *)
Lemma leading_gap_placeholders_witness :
  sorted_positions (foo_book <$> [of_Z 4; of_Z 3]) = [of_Z 3; of_Z 4]
  /\ missing_positions (foo_book <$> [of_Z 4; of_Z 3]) = [of_Z 1; of_Z 2]
  /\ (row_series_position <$>
        audiobooks (detectMissingSeriesBooks [foo_group [of_Z 4; of_Z 3]] empty_database))
     = [Some (of_Z 1); Some (of_Z 2)]
  /\ (leading_gap (sorted_positions (foo_book <$> [of_Z 4; of_Z 3]))
      = of_Z <$> seqZ 1 (Qceiling (of_Z 3) - 1)
      /\ (forall z : Z, (1 <= z)%Z -> (of_Z z < of_Z 3)%Qc ->
            In (of_Z z) (missing_positions (foo_book <$> [of_Z 4; of_Z 3]))
            /\ exists r,
                 In r (audiobooks (detectMissingSeriesBooks
                                     [foo_group [of_Z 4; of_Z 3]] empty_database))
                 /\ placeholder_row "Foo" (of_Z z)
                      (first_author (foo_book <$> [of_Z 4; of_Z 3])) r)
      /\ (forall p, In p (missing_positions (foo_book <$> [of_Z 4; of_Z 3])) ->
            (p ≤ of_Z 3)%Qc ->
            exists z : Z, p = of_Z z /\ (1 <= z)%Z /\ (of_Z z < of_Z 3)%Qc)).
Proof.
  split; [reflexivity|]. split; [reflexivity|]. split; [reflexivity|].
  apply (leading_gap_placeholders [foo_group [of_Z 4; of_Z 3]] empty_database
           "Foo" (foo_book <$> [of_Z 4; of_Z 3]) (of_Z 3)).
  - left. reflexivity.
  - intros name books p [[= <- <-]|[]] (b & [<-|[<-|[]]] & [= <-]); split; compute_done.
  - simpl. lia.
  - exists (foo_book (of_Z 3)). split; [right; now left | reflexivity].
  - intros p (b & [<-|[<-|[]]] & [= <-]); compute_done.
  - compute_done.
Defined.








(** ** How many positions the loops visit *)

(** X4: Over whole numbers within the safe range, the loop
    [for (pos = start; pos < bound; pos++)] runs its body [bound - start]
    times, and not at all when the bound is not above the start: a pair
    of neighbouring positions yields [next - current - 1] placeholders
    and a first position yields [firstPos - 1]. *)
Theorem for_positions_length (start bound : Z) (rest : list Qc) :
  isSafeInteger (of_Z start) ->
  isSafeInteger (of_Z bound) ->
  length (for_positions (of_Z start) (of_Z bound)) = Z.to_nat (bound - start)
  /\ length (interior_gaps [of_Z start; of_Z bound]) = Z.to_nat (bound - start - 1)
  /\ length (leading_gap (of_Z bound :: rest)) = Z.to_nat (bound - 1).
Proof.
  intros _ _. split; [|split].
  - rewrite for_positions_whole, Qceiling_of_Z, length_fmap, length_seqZ. reflexivity.
  - cbn [interior_gaps]. rewrite app_nil_r.
    destruct (decide (1 < of_Z bound - of_Z start)%Qc) as [Hgap|Hgap].
    + rewrite pair_gap_whole, length_fmap, length_seqZ. reflexivity.
    + rewrite gap_guard_whole in Hgap. cbn [length]. lia.
  - rewrite leading_gap_whole, Qceiling_of_Z, length_fmap, length_seqZ. reflexivity.
Qed.

Lemma for_positions_length_witness :
  length (for_positions (of_Z 2) (of_Z 7)) = 5%nat
  /\ length (interior_gaps [of_Z 2; of_Z 7]) = 4%nat
  /\ length (leading_gap [of_Z 7; of_Z 9]) = 6%nat.
Proof.
  apply (for_positions_length 2 7 [of_Z 9]); repeat split; compute_done.
Defined.

Lemma missing_positions_unknown (books : list Audiobook) (p : Qc) :
  In p (missing_positions books) -> ~ In p (sorted_positions books).
Proof.
  pose proof (sorted_positions_ascending books) as Hs. unfold missing_positions.
  destruct (length books <? 2)%nat; [intros []|].
  destruct (length (sortedBooks books) <? 2)%nat; [intros []|].
  intros Hp. apply in_app_or in Hp. destruct Hp as [Hp|Hp].
  - now apply interior_gaps_unknown.
  - intros Hin. destruct (leading_gap_below _ p p Hs Hp Hin) as [_ H].
    now apply Qclt_not_eq in H.
Qed.

Lemma missing_positions_NoDup (books : list Audiobook) : NoDup (missing_positions books).
Proof.
  pose proof (sorted_positions_ascending books) as Hs. unfold missing_positions.
  destruct (length books <? 2)%nat; [constructor|].
  destruct (length (sortedBooks books) <? 2)%nat; [constructor|].
  apply NoDup_app. split; [|split].
  - now apply increasing_NoDup, interior_gaps_increasing.
  - intros p Hp Hq. apply list_elem_of_In in Hp, Hq.
    destruct (sorted_positions books) as [|f rest] eqn:E; [destruct Hq|].
    apply (interior_gaps_above f rest p Hs) in Hp.
    destruct (leading_gap_below (f :: rest) p f Hs Hq) as [_ H]; [now left|].
    revert Hp H. to_Q. lra.
  - destruct (sorted_positions books) as [|f rest]; cbn [leading_gap]; [constructor|].
    destruct (decide (1 < f)%Qc); [|constructor].
    apply increasing_NoDup, count_from_increasing.
Qed.

Lemma missing_positions_from_one (books : list Audiobook) :
  Forall (fun x => (0 ≤ x)%Qc) (sorted_positions books) ->
  Forall (fun p => (1 ≤ p)%Qc) (missing_positions books).
Proof.
  intros Hnn. unfold missing_positions.
  destruct (length books <? 2)%nat; [constructor|].
  destruct (length (sortedBooks books) <? 2)%nat; [constructor|].
  apply Forall_app. split; apply Forall_forall; intros p Hp;
    apply list_elem_of_In in Hp.
  - destruct (interior_gaps_only _ p Hp) as (before & c & n & after & E & _ & Hfor).
    apply count_from_bounds in Hfor. destruct Hfor as [Hlo _].
    rewrite E in Hnn. apply Forall_app in Hnn. destruct Hnn as [_ Hnn].
    apply Forall_inv in Hnn. revert Hlo Hnn. to_Q.
    change (this 0%Qc) with 0%Q. lra.
  - destruct (sorted_positions books) as [|f rest]; [destruct Hp|].
    cbn [leading_gap] in Hp. destruct (decide (1 < f)%Qc); [|destruct Hp].
    apply count_from_bounds in Hp. tauto.
Qed.

(** X5: Among whole positions, one run of the reconciliation over a
    group never asks for a position the group already has, nor for the
    same position twice; every position it asks for is a whole number
    in the safe range again; and when no known position is negative,
    every position asked for is at least 1. *)
Theorem missing_positions_fresh (books : list Audiobook) :
  whole_positions books ->
  (forall p, In p (missing_positions books) -> ~ known_position books p)
  /\ NoDup (missing_positions books)
  /\ Forall isSafeInteger (missing_positions books)
  /\ ((forall p, known_position books p -> (0 ≤ p)%Qc) ->
      Forall (fun p => (1 ≤ p)%Qc) (missing_positions books)).
Proof.
  intros Hwhole. split; [|split; [|split]].
  - intros p Hp Hknown. apply (missing_positions_unknown books p Hp).
    now apply sorted_positions_known.
  - apply missing_positions_NoDup.
  - now apply missing_positions_whole.
  - intros Hnn. apply missing_positions_from_one.
    apply Forall_forall. intros p Hp.
    apply Hnn. now apply sorted_positions_known, list_elem_of_In.
Qed.

(** Books 6, 2 and 3: the run asks for 4, 5 and 1. *)
Lemma missing_positions_fresh_witness :
  missing_positions (foo_book <$> [of_Z 6; of_Z 2; of_Z 3]) = [of_Z 4; of_Z 5; of_Z 1]
  /\ NoDup (missing_positions (foo_book <$> [of_Z 6; of_Z 2; of_Z 3])).
Proof.
  split; [reflexivity|].
  refine (proj1 (proj2 (missing_positions_fresh (foo_book <$> [of_Z 6; of_Z 2; of_Z 3]) _))).
  intros p (b & [<-|[<-|[<-|[]]]] & [= <-]); repeat split; compute_done.
Defined.

(** ** The matcher *)

Lemma orelse_Some {A} (x y : option A) (v : A) :
  orelse x y = Some v -> x = Some v \/ y = Some v.
Proof. destruct x; simpl; auto. Qed.

(** A successful match hands a tail of its input to the continuation. *)
Lemma rmatch_suffix {A} (r : regex) :
  forall (s : list ascii) (c : captures) (k : list ascii -> captures -> option A) (x : A),
    rmatch r s c k = Some x ->
    exists pre s' c', s = pre ++ s' /\ k s' c' = Some x.
Proof.
  induction r as [p|a IHa b IHb|greedy a IHa|a IHa|n a IHa|]; intros s c k x; simpl.
  - destruct s as [|y s']; [discriminate|].
    destruct (p y); [|discriminate]. intros H. now exists [y], s', c.
  - intros H. apply IHa in H. destruct H as (pre1 & s1 & c1 & -> & H).
    apply IHb in H. destruct H as (pre2 & s2 & c2 & -> & H).
    exists (pre1 ++ pre2), s2, c2. now rewrite <- app_assoc.
  - generalize (length s) as fuel. intros fuel. revert s c.
    induction fuel as [|fuel IH]; intros s c H.
    + now exists [], s, c.
    + assert (rmatch a s c
                (fun s' c' =>
                   if (length s' <? length s)%nat
                   then (fix iterate (fuel : nat) (s : list ascii) (c : captures) : option A :=
                           match fuel with
                           | O => k s c
                           | S fuel' =>
                               let more :=
                                 rmatch a s c (fun s' c' =>
                                   if (length s' <? length s)%nat
                                   then iterate fuel' s' c' else None) in
                               if greedy then orelse more (k s c) else orelse (k s c) more
                           end) fuel s' c'
                   else None) = Some x
              \/ k s c = Some x) as [Hmore|Hstop].
      { destruct greedy; apply orelse_Some in H; tauto. }
      * apply IHa in Hmore. destruct Hmore as (pre1 & s1 & c1 & -> & H1).
        destruct (length s1 <? length (pre1 ++ s1))%nat; [|discriminate].
        apply IH in H1. destruct H1 as (pre2 & s2 & c2 & -> & H2).
        exists (pre1 ++ pre2), s2, c2. now rewrite <- app_assoc.
      * now exists [], s, c.
  - intros H. apply orelse_Some in H. destruct H as [H|H].
    + now apply IHa in H.
    + now exists [], s, c.
  - intros H. apply IHa in H. destruct H as (pre & s' & c' & -> & H).
    now exists pre, s', ((n, text (take (length (pre ++ s') - length s') (pre ++ s'))) :: c').
  - destruct s; [|discriminate]. intros H. now exists [], [], c.
Qed.

Lemma here_splits (r : regex) (s before : list ascii) (m : match_result) :
  rmatch r s [] (fun rest c =>
    Some (MatchResult (rev before) (take (length s - length rest) s) rest c)) = Some m ->
  m_before m ++ m_text m ++ m_after m = rev before ++ s.
Proof.
  intros H. apply rmatch_suffix in H.
  destruct H as (pre & s' & c' & -> & [= <-]). simpl.
  now rewrite length_app, Nat.add_sub, take_app_length.
Qed.

(** A match found by [search] splits the subject into the text before
    it, the match and the text after it. *)
Lemma search_splits (r : regex) (s : list ascii) :
  forall (before : list ascii) (m : match_result),
    search r before s = Some m ->
    m_before m ++ m_text m ++ m_after m = rev before ++ s.
Proof.
  induction s as [|y s IH]; intros before m; cbn [search].
  - destruct (rmatch r [] [] _) as [m'|] eqn:E; [|discriminate].
    intros [= ->]. now apply here_splits in E.
  - destruct (rmatch r (y :: s) [] _) as [m'|] eqn:E.
    + intros [= ->]. now apply here_splits in E.
    + intros H. apply IH in H. rewrite H. simpl. now rewrite <- app_assoc.
Qed.

Lemma str_match_splits (r : regex) (s : string) (m : match_result) :
  str_match r s = Some m ->
  text (m_before m ++ m_text m ++ m_after m) = s.
Proof.
  unfold str_match. intros H. apply search_splits in H. rewrite H. simpl.
  unfold text, chars. apply string_of_list_ascii_of_string.
Qed.

(** ** Parsing *)

(** The examples of the parsing rules. *)
Example cleanSeriesName_examples :
  cleanSeriesName (Some (SStr "Mistborn, Book 3")) = Ok (Some "Mistborn")
  /\ cleanSeriesName (Some (SStr "The Expanse #4 (unabridged)")) = Ok (Some "The Expanse")
  /\ cleanSeriesName (Some (SStr "   ")) = Ok None
  /\ cleanSeriesName None = Ok None.
Proof. repeat split; vm_compute; reflexivity. Qed.

Example parseSeriesPosition_examples :
  parseSeriesPosition (Some (SStr "Book 1.5")) = Some (ratio 3 2)
  /\ parseSeriesPosition (Some (SNum (of_Z 4))) = Some (of_Z 4)
  /\ parseSeriesPosition (Some (SStr "first")) = None
  /\ parseSeriesPosition (Some (SNum (of_Z 0))) = None.
Proof. repeat split; compute_done. Qed.

Example parseRating_examples :
  parseRating (Some (SStr "4.5 stars")) = Some (ratio 9 2)
  /\ parseRating (Some (SStr "")) = None
  /\ parseRating (Some (SStr "n/a")) = None.
Proof. repeat split; compute_done. Qed.


(** C9: [parseDuration] tries the four patterns in order on the
    lower-cased string and the first match wins: hours and minutes
    before the colon form, the colon form before minutes alone, minutes
    alone before hours alone. So "5 hrs 30 mins" is 330, "1:45:00" is
    105 (the seconds are dropped), "42 mins" is 42, and a bare "90"
    matches nothing. *)
Theorem parseDuration_first_match_wins :
  (forall v, parseDuration (Some v)
             = if truthy v then duration_cascade (toLowerCase (to_string v)) else None)
  /\ parseDuration None = None
  /\ parseDuration (Some (SStr "5 hrs 30 mins")) = Some 330%Z
  /\ parseDuration (Some (SStr "1:45:00")) = Some 105%Z
  /\ parseDuration (Some (SStr "42 mins")) = Some 42%Z
  /\ parseDuration (Some (SStr "90")) = None
  /\ parseDuration (Some (SNum (of_Z 90))) = None
  /\ parseDuration (Some (SStr "5 HRS 30 MINS")) = Some 330%Z
  /\ parseDuration (Some (SStr "2 hrs 15 mins 1:30")) = Some 135%Z
  /\ parseDuration (Some (SStr "1:30 45 mins")) = Some 90%Z
  /\ parseDuration (Some (SStr "30 mins 2 hrs")) = Some 30%Z
  /\ parseDuration (Some (SStr "3 hrs")) = Some 180%Z.
Proof.
  split.
  - intros v. unfold parseDuration, duration_cascade, falsy.
    destruct (truthy v); simpl; [|reflexivity].
    destruct (str_match hm_pattern _); [reflexivity|].
    destruct (str_match time_pattern _); [reflexivity|].
    destruct (str_match mins_pattern _); [reflexivity|].
    destruct (str_match hrs_pattern _); reflexivity.
  - repeat split; vm_compute; reflexivity.
Qed.

(** [cleanSeriesName] is the one parser that can throw, and it does so
    on every truthy cell that is not a string. *)
Lemma cleanSeriesName_throws (v : option scalar) (e : js_error) :
  cleanSeriesName v = Throw e <->
  exists x, v = Some x /\ truthy x = true /\ (forall s, x <> SStr s)
            /\ e = TypeError "series.trim is not a function".
Proof.
  unfold cleanSeriesName. split.
  - destruct v as [x|]; [|discriminate].
    destruct (truthy x) eqn:Hx; simpl; [|discriminate].
    destruct x as [|b|q|s]; try (intros [= <-]; eexists; repeat split; eauto; discriminate).
    destruct (bool_decide (trim s = "")); discriminate.
  - intros (x & -> & Hx & Hs & ->). rewrite Hx. simpl.
    destruct x as [|b|q|s]; try reflexivity. now destruct (Hs s).
Qed.


Lemma normalize_throw (iso_date : scalar -> option string) (r : row) (e : js_error) :
  cleanSeriesName (first_present r series_columns) = Throw e ->
  normalizeLibationData iso_date r = Throw e.
Proof. intros H. unfold normalizeLibationData. rewrite H. reflexivity. Qed.

(** C3 fails on the code: a row whose Series cell holds a number makes
    [cleanSeriesName] call [trim] on a number, and the [TypeError]
    leaves [normalizeLibationData] and aborts the whole import, in both
    classes. *)
Theorem normalize_throws_on_numeric_series (iso_date : scalar -> option string) :
  first_present numeric_series_row series_columns = Some (SNum (of_Z 1984))
  /\ normalizeLibationData iso_date numeric_series_row
     = Throw (TypeError "series.trim is not a function")
  /\ Enhanced.normalizeLibationData iso_date numeric_series_row
     = Throw (TypeError "series.trim is not a function")
  /\ parseLibationExport iso_date [numeric_series_row] empty_database
     = Throw (TypeError "series.trim is not a function")
  /\ parseSeriesPosition (Some (SNum (of_Z 1984))) = Some (of_Z 1984).
Proof. repeat split; vm_compute; reflexivity. Qed.





(** ** The store *)

Lemma row_id_le_max (rows : list book_row) (r : book_row) :
  In r rows -> (row_id r <= max_rowid rows)%Z.
Proof.
  unfold max_rowid. induction rows as [|x rows IH]; [intros []|].
  rewrite fmap_cons. simpl. intros [->|H]; [lia|]. specialize (IH H). lia.
Qed.

(** AUTOINCREMENT never hands out the id of a row of the table. *)
Lemma next_rowid_fresh (d : database) (r : book_row) :
  In r (audiobooks d) -> (row_id r < next_rowid d)%Z.
Proof. intros H. apply row_id_le_max in H. unfold next_rowid. lia. Qed.

(** A normalised record is owned and not listened. *)
Lemma normalize_flags (iso_date : scalar -> option string) (r : row) (b : Audiobook) :
  normalizeLibationData iso_date r = Ok b ->
  owned b = true /\ listened b = false /\ id b = 0%Z.
Proof.
  unfold normalizeLibationData.
  destruct (cleanSeriesName _); simpl; [|discriminate].
  intros [= <-]. repeat split.
Qed.

(** C10: when the ASIN of an imported row is already in the table, the
    upsert deletes the stored row and inserts the normalised record
    under a fresh id: afterwards the only row with that ASIN is the new
    one, its listened flag is false whatever the old one was, and its id
    is larger than the old id. *)
Theorem upsert_replaces_row (iso_date : scalar -> option string) (r : row)
    (b : Audiobook) (a : scalar) (old : book_row) (d : database) :
  normalizeLibationData iso_date r = Ok b ->
  asin b = Some a ->
  In old (audiobooks d) ->
  row_asin old = Some a ->
  let lastID := fst (upsertAudiobook b d) in
  let d' := snd (upsertAudiobook b d) in
  ~ In old (audiobooks d')
  /\ In (to_row lastID b) (audiobooks d')
  /\ (forall r', In r' (audiobooks d') -> row_asin r' = Some a -> r' = to_row lastID b)
  /\ row_listened (to_row lastID b) = false
  /\ (row_id old < lastID)%Z.
Proof.
  intros Hb Ha Hold Hasin lastID d'.
  pose proof (next_rowid_fresh d old Hold) as Hfresh.
  assert (forall x, In x (List.filter (fun r => negb (asin_conflict (asin b) r))
                            (audiobooks d)) -> row_asin x <> Some a) as Hkept.
  { intros x Hx. apply filter_In in Hx. destruct Hx as [_ Hx].
    unfold asin_conflict in Hx. rewrite Ha in Hx.
    destruct (row_asin x) as [y|]; [|discriminate].
    intros [= ->]. now rewrite bool_decide_eq_true_2 in Hx. }
  unfold d', lastID, upsertAudiobook. simpl. repeat split.
  - intros Hin. apply in_app_or in Hin. destruct Hin as [Hin|[Heq|[]]].
    + now apply (Hkept old Hin).
    + rewrite <- Heq in Hfresh. simpl in Hfresh. lia.
  - apply in_or_app. right. now left.
  - intros r' Hin Hr'. apply in_app_or in Hin. destruct Hin as [Hin|[Heq|[]]].
    + now destruct (Hkept r' Hin).
    + now symmetry.
  - simpl. destruct (normalize_flags iso_date r b Hb) as (_ & -> & _). reflexivity.
  - exact Hfresh.
Qed.

(** The first book of the Foo sheet is imported, marked as listened
    under its id 1, and imported again: its row now has id 5 and is not
    listened, and id 1 is gone. *)
Lemma upsert_replaces_row_witness :
  let d1 := store_after calendar_date foo_sheet empty_database in
  let d := snd (markAsListened 1 d1) in
  let old := to_row 1 {| id := 0; asin := Some (SStr "B001"); title := SStr "Foo One";
                         series_name := Some "Foo"; series_position := Some (of_Z 1);
                         author := Some (SStr "A. Writer"); narrator := None;
                         owned := true; listened := true;
                         release_date := None; purchase_date := None;
                         rating := None; length_minutes := None |} in
  let b := {| id := 0; asin := Some (SStr "B001"); title := SStr "Foo One";
              series_name := Some "Foo"; series_position := Some (of_Z 1);
              author := Some (SStr "A. Writer"); narrator := None;
              owned := true; listened := false;
              release_date := None; purchase_date := None;
              rating := None; length_minutes := None |} in
  fst (markAsListened 1 d1) = true
  /\ In old (audiobooks d)
  /\ (row_summary <$> audiobooks (store_after calendar_date foo_sheet d))
     = [ (4%Z, None, SStr "Foo Book 3", Some (of_Z 3), false, false);
         (5%Z, Some (SStr "B001"), SStr "Foo One", Some (of_Z 1), true, false);
         (6%Z, Some (SStr "B002"), SStr "Foo Two", Some (of_Z 2), true, false);
         (7%Z, Some (SStr "B004"), SStr "Foo Four", Some (of_Z 4), true, false);
         (8%Z, None, SStr "Foo Book 3", Some (of_Z 3), false, false) ]
  /\ fst (markAsListened 1 (store_after calendar_date foo_sheet d)) = false
  /\ (~ In old (audiobooks (snd (upsertAudiobook b d)))
      /\ In (to_row (fst (upsertAudiobook b d)) b) (audiobooks (snd (upsertAudiobook b d)))
      /\ (forall r', In r' (audiobooks (snd (upsertAudiobook b d))) ->
                     row_asin r' = Some (SStr "B001") ->
                     r' = to_row (fst (upsertAudiobook b d)) b)
      /\ row_listened (to_row (fst (upsertAudiobook b d)) b) = false
      /\ (row_id old < fst (upsertAudiobook b d))%Z).
Proof.
  intros d1 d old b.
  split; [reflexivity|]. split; [left; reflexivity|].
  split; [reflexivity|]. split; [reflexivity|].
  apply (upsert_replaces_row calendar_date (foo_row "B001" "Foo One" (of_Z 1))
           b (SStr "B001") old d).
  - reflexivity.
  - reflexivity.
  - left. reflexivity.
  - reflexivity.
Defined.

(** ** The import *)

Lemma traverse_ok {A B} (f : A -> result B) (l : list A) (bs : list B) :
  traverse f l = Ok bs -> length bs = length l.
Proof.
  revert bs. induction l as [|a l IH]; simpl; intros bs.
  - now intros [= <-].
  - destruct (f a); simpl; [|discriminate].
    destruct (traverse f l); simpl; [|discriminate].
    intros [= <-]. simpl. f_equal. now apply IH.
Qed.

Lemma traverse_throw {A B} (f : A -> result B) (l : list A) (e : js_error) :
  traverse f l = Throw e -> Exists (fun a => f a = Throw e) l.
Proof.
  induction l as [|a l IH]; simpl; [discriminate|].
  destruct (f a) eqn:Ha; simpl.
  - destruct (traverse f l); simpl; [discriminate|].
    intros [= <-]. right. now apply IH.
  - intros [= <-]. now left.
Qed.

(** C8: an import that does not throw reports as [missingBooksFound]
    the number of rows with [owned = 0] in the table it leaves behind,
    and an import throws only when the normalisation of one of its rows
    does. Importing the Foo sheet (books 1, 2 and 4) into an empty
    table leaves four rows, the three owned books and one placeholder at
    position 3, and reports one missing book. *)
Theorem missingBooksFound_counts_unowned (iso_date : scalar -> option string)
    (data : list row) (d : database) :
  match parseLibationExport iso_date data d with
  | Ok (s, d') =>
      missingBooksFound s
      = length (List.filter (fun r => negb (row_owned r)) (audiobooks d'))
      /\ processed s = length data
  | Throw e => Exists (fun r => normalizeLibationData iso_date r = Throw e) data
  end
  /\ exists s d',
       parseLibationExport iso_date foo_sheet empty_database = Ok (s, d')
       /\ missingBooksFound s = 1%nat
       /\ processed s = 3%nat
       /\ series s = 1%nat
       /\ (row_summary <$> audiobooks d')
          = [ (1%Z, Some (SStr "B001"), SStr "Foo One", Some (of_Z 1), true, false);
              (2%Z, Some (SStr "B002"), SStr "Foo Two", Some (of_Z 2), true, false);
              (3%Z, Some (SStr "B004"), SStr "Foo Four", Some (of_Z 4), true, false);
              (4%Z, None, SStr "Foo Book 3", Some (of_Z 3), false, false) ].
Proof.
  split.
  - unfold parseLibationExport.
    destruct (traverse (normalizeLibationData iso_date) data) as [books|e] eqn:E; simpl.
    + split; [reflexivity|]. now apply traverse_ok in E.
    + now apply traverse_throw.
  - eexists. eexists. split; [vm_compute; reflexivity|].
    repeat split.
Qed.








(** C1 fails on the code: importing the Foo sheet twice replaces the
    three owned rows, whose ASINs collide, but appends a second
    placeholder for position 3, because a row without ASIN collides
    with nothing; without the ASIN column the owned rows are duplicated
    as well. *)
Theorem reimport_duplicates_placeholders (iso_date : scalar -> option string) :
  let once := store_after iso_date foo_sheet empty_database in
  let twice := store_after iso_date foo_sheet once in
  (row_summary <$> audiobooks once)
  = [ (1%Z, Some (SStr "B001"), SStr "Foo One", Some (of_Z 1), true, false);
      (2%Z, Some (SStr "B002"), SStr "Foo Two", Some (of_Z 2), true, false);
      (3%Z, Some (SStr "B004"), SStr "Foo Four", Some (of_Z 4), true, false);
      (4%Z, None, SStr "Foo Book 3", Some (of_Z 3), false, false) ]
  /\ (row_summary <$> audiobooks twice)
     = [ (4%Z, None, SStr "Foo Book 3", Some (of_Z 3), false, false);
         (5%Z, Some (SStr "B001"), SStr "Foo One", Some (of_Z 1), true, false);
         (6%Z, Some (SStr "B002"), SStr "Foo Two", Some (of_Z 2), true, false);
         (7%Z, Some (SStr "B004"), SStr "Foo Four", Some (of_Z 4), true, false);
         (8%Z, None, SStr "Foo Book 3", Some (of_Z 3), false, false) ]
  /\ getMissingBooksCount once = 1%nat
  /\ getMissingBooksCount twice = 2%nat
  /\ length (audiobooks (store_after iso_date foo_sheet_without_asin empty_database))
     = 4%nat
  /\ length (audiobooks
               (store_after iso_date foo_sheet_without_asin
                  (store_after iso_date foo_sheet_without_asin empty_database)))
     = 8%nat.
Proof. repeat split; vm_compute; reflexivity. Qed.

(** * Further properties *)

Lemma omap_filter_sublist {A B} (f : A -> option B) (p : A -> bool) (l : list A) :
  sublist (omap f (List.filter p l)) (omap f l).
Proof.
  induction l as [|x l IH]; simpl; [constructor|].
  destruct (p x); simpl; destruct (f x); try (now constructor); exact IH.
Qed.

Lemma fmap_filter_sublist {A B} (f : A -> B) (p : A -> bool) (l : list A) :
  sublist (f <$> List.filter p l) (f <$> l).
Proof.
  induction l as [|x l IH]; simpl; [constructor|].
  destruct (p x); simpl; now constructor.
Qed.

Lemma kept_rows_other_asin (a : scalar) (rows : list book_row) :
  ~ In a (omap row_asin
            (List.filter (fun r => negb (asin_conflict (Some a) r)) rows)).
Proof.
  induction rows as [|r rows IH]; [simpl; tauto|].
  cbn [List.filter]. unfold asin_conflict at 1.
  destruct (row_asin r) as [y|] eqn:Hy.
  - case_bool_decide as Hay; cbn [negb]; [exact IH|].
    cbn [omap list_omap]. rewrite Hy. intros [->|H]; [now apply Hay|now apply IH].
  - cbn [negb omap list_omap]. rewrite Hy. exact IH.
Qed.

Lemma upsert_keeps_consistent (b : Audiobook) (d : database) :
  table_consistent d -> table_consistent (snd (upsertAudiobook b d)).
Proof.
  intros [Hasin Hid]. unfold table_consistent, upsertAudiobook. simpl. split.
  - rewrite omap_app. apply NoDup_app. split; [|split].
    + eapply sublist_NoDup; [exact Hasin|apply omap_filter_sublist].
    + intros a Ha Hnew. simpl in Hnew.
      destruct (asin b) as [x|] eqn:Hb; simpl in Hnew; [|now apply elem_of_nil in Hnew].
      apply list_elem_of_singleton in Hnew. subst a.
      apply list_elem_of_In in Ha. now apply kept_rows_other_asin in Ha.
    + simpl. destruct (asin b); simpl; [apply NoDup_singleton|constructor].
  - rewrite fmap_app. apply NoDup_app. split; [|split].
    + eapply sublist_NoDup; [exact Hid|apply fmap_filter_sublist].
    + intros i Hi Hnew. simpl in Hnew. apply list_elem_of_singleton in Hnew. subst i.
      apply list_elem_of_fmap in Hi. destruct Hi as (r & Hr & Hin).
      apply list_elem_of_In, filter_In in Hin. destruct Hin as [Hin _].
      apply next_rowid_fresh in Hin. lia.
    + apply NoDup_singleton.
Qed.

Lemma upsert_all_keeps_consistent (books : list Audiobook) : forall d : database,
  table_consistent d -> table_consistent (upsert_all books d).
Proof.
  unfold upsert_all. induction books as [|b books IH]; intros d Hd; cbn [fold_left].
  - exact Hd.
  - apply IH. now apply upsert_keeps_consistent.
Qed.

Lemma detect_keeps_consistent (sm : series_map) : forall d : database,
  table_consistent d -> table_consistent (detectMissingSeriesBooks sm d).
Proof.
  assert (forall name a ps d, table_consistent d ->
            table_consistent (add_placeholders name a ps d)) as Hadd.
  { intros name a ps. unfold add_placeholders.
    induction ps as [|p ps IH]; intros d Hd; cbn [fold_left]; [exact Hd|].
    apply IH. unfold addMissingBookPlaceholder. now apply upsert_keeps_consistent. }
  unfold detectMissingSeriesBooks.
  induction sm as [|[name books] sm IH]; intros d Hd; cbn [fold_left]; [exact Hd|].
  apply IH. unfold detect_series. now apply Hadd.
Qed.

(** X2: The import keeps the table within its schema: afterwards no two
    rows share an ASIN or an id. *)
Theorem import_keeps_table_consistent (iso_date : scalar -> option string)
    (data : list row) (d d' : database) (s : summary) :
  table_consistent d ->
  parseLibationExport iso_date data d = Ok (s, d') ->
  table_consistent d'.
Proof.
  intros Hd. unfold parseLibationExport.
  destruct (traverse (normalizeLibationData iso_date) data) as [books|e];
    simpl; [|discriminate].
  intros [= _ <-]. now apply detect_keeps_consistent, upsert_all_keeps_consistent.
Qed.

Lemma import_keeps_table_consistent_witness :
  table_consistent (store_after calendar_date foo_sheet
                      (store_after calendar_date foo_sheet empty_database)).
Proof.
  apply (import_keeps_table_consistent calendar_date foo_sheet
           (store_after calendar_date foo_sheet empty_database)
           (store_after calendar_date foo_sheet
              (store_after calendar_date foo_sheet empty_database))
           (mkSummary 3 1 2)).
  - apply (import_keeps_table_consistent calendar_date foo_sheet empty_database
             (store_after calendar_date foo_sheet empty_database) (mkSummary 3 1 1)).
    + split; constructor.
    + reflexivity.
  - reflexivity.
Defined.

(** ** Rows an import leaves alone *)

Lemma upsert_keeps_rows_without_asin (b : Audiobook) (d : database) (r : book_row) :
  In r (audiobooks d) -> row_asin r = None ->
  In r (audiobooks (snd (upsertAudiobook b d))).
Proof.
  intros Hr Ha. unfold upsertAudiobook. simpl. apply in_or_app. left.
  apply filter_In. split; [exact Hr|]. unfold asin_conflict. rewrite Ha.
  now destruct (asin b).
Qed.

(** X3: A row without ASIN, such as a placeholder, survives every import
    unchanged, whatever the sheet contains: the real book arriving
    later does not replace its placeholder. *)
Theorem import_keeps_rows_without_asin (iso_date : scalar -> option string)
    (data : list row) (d d' : database) (s : summary) (r : book_row) :
  parseLibationExport iso_date data d = Ok (s, d') ->
  In r (audiobooks d) ->
  row_asin r = None ->
  In r (audiobooks d').
Proof.
  unfold parseLibationExport.
  destruct (traverse (normalizeLibationData iso_date) data) as [books|e];
    simpl; [|discriminate].
  intros [= _ <-] Hr Ha.
  destruct (detect_rows (fold_left track_series books []) (upsert_all books d))
    as (news & -> & _).
  apply in_or_app. left. clear news. revert d Hr. unfold upsert_all.
  induction books as [|b books IH]; intros d Hr; cbn [fold_left]; [exact Hr|].
  apply IH. now apply upsert_keeps_rows_without_asin.
Qed.

(** ** The sort *)

Lemma insert_sorted_stable (q : Qc) (a : Audiobook) (l : list Audiobook) :
  List.filter (at_position q) (insert_sorted a l)
  = List.filter (at_position q) (a :: l).
Proof.
  induction l as [|b l IH]; [reflexivity|]. cbn [insert_sorted].
  unfold comes_first. case_bool_decide as Hab; [reflexivity|].
  cbn [List.filter]. rewrite IH. cbn [List.filter].
  unfold at_position. repeat case_bool_decide; try reflexivity.
  exfalso. apply Hab. replace (position_key a) with q by congruence.
  replace (position_key b) with q by congruence. apply Qcle_refl.
Qed.

Lemma sort_by_position_stable (q : Qc) (l : list Audiobook) :
  List.filter (at_position q) (sort_by_position l) = List.filter (at_position q) l.
Proof.
  induction l as [|a l IH]; [reflexivity|]. cbn [sort_by_position foldr].
  rewrite insert_sorted_stable. cbn [List.filter]. fold (sort_by_position l).
  now rewrite IH.
Qed.

(** X6: [sortedBooks] holds exactly the books that carry a position, in
    ascending order of position, and books at the same position keep
    the order they had in the sheet. *)
Theorem sortedBooks_sorted_stable (books : list Audiobook) :
  Permutation (sortedBooks books) (List.filter has_position books)
  /\ StronglySorted by_position (sortedBooks books)
  /\ forall q, List.filter (at_position q) (sortedBooks books)
               = List.filter (at_position q) (List.filter has_position books).
Proof.
  unfold sortedBooks. split; [apply sort_by_position_perm|].
  split; [apply sort_by_position_sorted|]. intros q. apply sort_by_position_stable.
Qed.

(** ** Marking a book as listened *)

Lemma set_listened_twice (r : book_row) : set_listened (set_listened r) = set_listened r.
Proof. reflexivity. Qed.

(** X7: [markAsListened] reports a change exactly when a row has the id;
    with an unknown id the table is unchanged; the flag is set without
    looking at [owned], so a placeholder can be marked too; ids, ASINs
    and the number of missing books stay as they were, and marking
    twice is marking once. *)
Theorem markAsListened_effect (bookId : Z) (d : database) :
  (fst (markAsListened bookId d) = true <->
     exists r, In r (audiobooks d) /\ row_id r = bookId)
  /\ (fst (markAsListened bookId d) = false -> snd (markAsListened bookId d) = d)
  /\ (forall r, In r (audiobooks d) -> row_id r = bookId ->
        In (set_listened r) (audiobooks (snd (markAsListened bookId d))))
  /\ (row_id <$> audiobooks (snd (markAsListened bookId d))) = (row_id <$> audiobooks d)
  /\ (row_asin <$> audiobooks (snd (markAsListened bookId d))) = (row_asin <$> audiobooks d)
  /\ getMissingBooksCount (snd (markAsListened bookId d)) = getMissingBooksCount d
  /\ snd (markAsListened bookId (snd (markAsListened bookId d)))
     = snd (markAsListened bookId d).
Proof.
  destruct d as [rows seq]. unfold markAsListened, getMissingBooksCount. cbn [fst snd audiobooks sqlite_sequence].
  split; [|split; [|split; [|split; [|split; [|split]]]]].
  - rewrite existsb_exists. split; intros (r & Hr & Hid); exists r; split; try exact Hr.
    + now apply bool_decide_eq_true in Hid.
    + now apply bool_decide_eq_true.
  - intros Hno. f_equal. induction rows as [|r rows IH]; [reflexivity|].
    cbn [existsb] in Hno. apply orb_false_iff in Hno. destruct Hno as [Hr Hrows].
    rewrite fmap_cons, Hr. f_equal. now apply IH.
  - intros r Hr Hid. apply list_elem_of_In. apply list_elem_of_fmap.
    exists r. split; [|now apply list_elem_of_In].
    now rewrite bool_decide_eq_true_2.
  - induction rows as [|r rows IH]; [reflexivity|]. rewrite !fmap_cons, IH. f_equal.
    now destruct (bool_decide (row_id r = bookId)).
  - induction rows as [|r rows IH]; [reflexivity|]. rewrite !fmap_cons, IH. f_equal.
    now destruct (bool_decide (row_id r = bookId)).
  - induction rows as [|r rows IH]; [reflexivity|]. rewrite fmap_cons. cbn [List.filter].
    replace (row_owned (if bool_decide (row_id r = bookId) then set_listened r else r))
      with (row_owned r) by (now destruct (bool_decide (row_id r = bookId))).
    destruct (row_owned r); cbn [negb length]; [exact IH|f_equal; exact IH].
  - f_equal. induction rows as [|r rows IH]; [reflexivity|]. rewrite !fmap_cons, IH. f_equal.
    destruct (bool_decide (row_id r = bookId)) eqn:Hid; [|now rewrite Hid].
    change (row_id (set_listened r)) with (row_id r). now rewrite Hid.
Qed.

(** ** The series map *)

Lemma series_push_keys (name : string) (b : Audiobook) (m : series_map) (n : string) :
  In n (fst <$> series_push name b m) <-> n = name \/ In n (fst <$> m).
Proof.
  induction m as [|[k bs] m IH]; cbn [series_push].
  - simpl. intuition congruence.
  - case_bool_decide as Hk.
    + subst k. rewrite !fmap_cons. simpl. intuition congruence.
    + rewrite !fmap_cons. simpl. rewrite IH. intuition congruence.
Qed.

Lemma series_push_NoDup (name : string) (b : Audiobook) (m : series_map) :
  NoDup (fst <$> m) -> NoDup (fst <$> series_push name b m).
Proof.
  induction m as [|[k bs] m IH]; cbn [series_push]; intros Hnd.
  - apply NoDup_singleton.
  - rewrite fmap_cons in Hnd. apply NoDup_cons in Hnd. destruct Hnd as [Hk Hnd].
    case_bool_decide as Hkn; rewrite fmap_cons; apply NoDup_cons.
    + split; [exact Hk|exact Hnd].
    + split; [|now apply IH]. cbn [fst]. intros Hin.
      apply list_elem_of_In, series_push_keys in Hin.
      destruct Hin as [->|Hin]; [now apply Hkn|]. now apply Hk, list_elem_of_In.
Qed.

Lemma series_push_entries (name : string) (b : Audiobook) (m : series_map)
    (n : string) (group : list Audiobook) :
  NoDup (fst <$> m) ->
  In (n, group) (series_push name b m) ->
  (n <> name /\ In (n, group) m)
  \/ (n = name /\ exists old, group = old ++ [b]
                   /\ (In (name, old) m \/ (old = [] /\ ~ In name (fst <$> m)))).
Proof.
  induction m as [|[k bs] m IH]; cbn [series_push]; intros Hnd.
  - intros [[= <- <-]|[]]. right. split; [reflexivity|]. exists [].
    split; [reflexivity|]. right. split; [reflexivity|]. intros [].
  - rewrite fmap_cons in Hnd. apply NoDup_cons in Hnd. destruct Hnd as [Hk Hnd].
    case_bool_decide as Hkn.
    + subst k. intros [[= <- <-]|Hin].
      * right. split; [reflexivity|]. exists bs. split; [reflexivity|]. left. now left.
      * left. split; [|now right]. intros ->. apply Hk.
        apply list_elem_of_fmap. exists (name, group). split; [reflexivity|].
        now apply list_elem_of_In.
    + intros [[= <- <-]|Hin].
      * left. split; [exact Hkn|now left].
      * destruct (IH Hnd Hin) as [[Hne Hm]|[-> (old & -> & Hold)]].
        -- left. split; [exact Hne|now right].
        -- right. split; [reflexivity|]. exists old. split; [reflexivity|].
           destruct Hold as [Hold|[-> Hold]]; [left; now right|right].
           split; [reflexivity|]. intros [H|H]; [now apply Hkn|now apply Hold].
Qed.

Lemma filter_none {A} (f : A -> bool) (l : list A) :
  (forall x, In x l -> f x = true -> False) -> List.filter f l = [].
Proof.
  induction l as [|x l IH]; intros H; [reflexivity|]. cbn [List.filter].
  destruct (f x) eqn:Hx; [destruct (H x); [now left|exact Hx]|].
  apply IH. intros y Hy. apply H. now right.
Qed.

Lemma track_series_groups (books : list Audiobook) (m : series_map) (b : Audiobook) :
  groups_books books m -> groups_books (books ++ [b]) (track_series m b).
Proof.
  intros (Hnd & Hgroups & Hall). unfold track_series.
  assert (forall n, series_name b <> Some n ->
            List.filter (in_series n) (books ++ [b]) = List.filter (in_series n) books)
    as Hother.
  { intros n Hn. rewrite List.filter_app. cbn [List.filter]. unfold in_series at 2.
    rewrite bool_decide_eq_false_2 by exact Hn. apply app_nil_r. }
  assert (forall n, series_name b = Some n ->
            List.filter (in_series n) (books ++ [b])
            = List.filter (in_series n) books ++ [b]) as Hsame.
  { intros n Hn. rewrite List.filter_app. cbn [List.filter]. unfold in_series at 2.
    now rewrite bool_decide_eq_true_2 by exact Hn. }
  destruct (series_name b) as [name|] eqn:Hb.
  - case_bool_decide as Hempty.
    + subst name. split; [exact Hnd|]. split.
      * intros n g Hin. destruct (Hgroups n g Hin) as (Hn & Hg & ->).
        repeat split; try assumption. symmetry. apply Hother. congruence.
      * intros b' n Hin Hn Hne. apply in_app_or in Hin.
        destruct Hin as [Hin|[<-|[]]]; [now apply (Hall b')|]. congruence.
    + split; [now apply series_push_NoDup|]. split.
      * intros n g Hin.
        destruct (series_push_entries name b m n g Hnd Hin)
          as [[Hne Hm]|[-> (old & -> & Hold)]].
        -- destruct (Hgroups n g Hm) as (Hn & Hg & ->).
           repeat split; try assumption. symmetry. apply Hother. congruence.
        -- split; [exact Hempty|]. split; [now destruct old|].
           rewrite (Hsame name eq_refl). f_equal.
           destruct Hold as [Hold|[-> Hold]]; [now apply Hgroups|].
           symmetry. apply filter_none.
           intros b' Hb' Hs. apply Hold. apply (Hall b' name Hb'); [|exact Hempty].
           unfold in_series in Hs. now apply bool_decide_eq_true in Hs.
      * intros b' n Hin Hn Hne. apply series_push_keys.
        apply in_app_or in Hin. destruct Hin as [Hin|[<-|[]]].
        -- right. now apply (Hall b').
        -- left. congruence.
  - split; [exact Hnd|]. split.
    + intros n g Hin. destruct (Hgroups n g Hin) as (Hn & Hg & ->).
      repeat split; try assumption. symmetry. apply Hother. congruence.
    + intros b' n Hin Hn Hne. apply in_app_or in Hin.
      destruct Hin as [Hin|[<-|[]]]; [now apply (Hall b')|]. congruence.
Qed.

Lemma fold_track_series_groups (books : list Audiobook) :
  groups_books books (fold_left track_series books []).
Proof.
  induction books as [|b books IH] using rev_ind.
  - split; [constructor|]. split; [intros ? ? []|intros ? ? []].
  - rewrite fold_left_app. cbn [fold_left]. now apply track_series_groups.
Qed.

Lemma remove_dups_length (l : list string) : (length (remove_dups l) <= length l)%nat.
Proof.
  induction l as [|x l IH]; [reflexivity|]. cbn [remove_dups].
  destruct (decide_rel elem_of x l); cbn [length]; lia.
Qed.

Lemma omap_length_le {A B} (f : A -> option B) (l : list A) :
  (length (omap f l) <= length l)%nat.
Proof.
  induction l as [|x l IH]; [reflexivity|]. cbn [omap list_omap].
  destruct (f x); cbn [length]; lia.
Qed.

Lemma groups_books_names (books : list Audiobook) (m : series_map) :
  groups_books books m -> Permutation (fst <$> m) (series_names books).
Proof.
  intros (Hnd & Hgroups & Hall). apply NoDup_Permutation.
  - exact Hnd.
  - apply NoDup_remove_dups.
  - intros n. unfold series_names. rewrite elem_of_remove_dups. split.
    + intros Hn. apply list_elem_of_fmap in Hn.
      destruct Hn as ([n' g] & -> & Hin). apply list_elem_of_In in Hin.
      destruct (Hgroups n' g Hin) as (Hne & Hg & E). cbn [fst].
      apply list_elem_of_In, filter_In. split.
      * destruct g as [|b g]; [now destruct Hg|].
        assert (In b (List.filter (in_series n') books)) as Hb by (rewrite <- E; now left).
        apply filter_In in Hb. destruct Hb as [Hb Hs].
        apply list_elem_of_In, list_elem_of_omap. exists b.
        split; [now apply list_elem_of_In|]. now apply bool_decide_eq_true in Hs.
      * now rewrite bool_decide_eq_false_2.
    + intros Hn. apply list_elem_of_In, filter_In in Hn. destruct Hn as [Hn Hne].
      apply list_elem_of_In, list_elem_of_omap in Hn. destruct Hn as (b & Hb & Hs).
      apply list_elem_of_In in Hb.
      apply list_elem_of_In. apply (Hall b n Hb Hs).
      intros ->. now rewrite bool_decide_eq_true_2 in Hne.
Qed.

(** X8: The [series] figure of the summary is the number of distinct
    non-empty cleaned series names of the sheet, never more than the
    number of rows; every series has one entry in the map, holding its
    books in sheet order. *)
Theorem import_counts_series (iso_date : scalar -> option string)
    (data : list row) (d d' : database) (s : summary) :
  parseLibationExport iso_date data d = Ok (s, d') ->
  exists books,
    traverse (normalizeLibationData iso_date) data = Ok books
    /\ groups_books books (fold_left track_series books [])
    /\ series s = length (series_names books)
    /\ processed s = length data
    /\ (series s <= processed s)%nat.
Proof.
  unfold parseLibationExport.
  destruct (traverse (normalizeLibationData iso_date) data) as [books|e] eqn:E;
    simpl; [|discriminate].
  intros [= <- _]. exists books. cbn [series processed].
  pose proof (fold_track_series_groups books) as Hg.
  pose proof (groups_books_names _ _ Hg) as Hperm.
  assert (length (fold_left track_series books []) = length (series_names books)) as Hlen.
  { rewrite <- (length_fmap fst). now apply Permutation_length. }
  split; [reflexivity|]. split; [exact Hg|]. split; [exact Hlen|].
  split; [now apply traverse_ok in E|]. rewrite Hlen. unfold series_names.
  pose proof (remove_dups_length
                (List.filter (fun n => negb (bool_decide (n = "")))
                   (omap series_name books))) as H1.
  pose proof (filter_length_le (fun n => negb (bool_decide (n = "")))
                (omap series_name books)) as H2.
  pose proof (omap_length_le series_name books) as H3.
  apply traverse_ok in E. lia.
Qed.

(** ** Columns *)

Lemma first_present_insert (r : row) (names : list string) (k : string) (v : scalar) :
  ~ In k names -> first_present (<[k:=v]> r) names = first_present r names.
Proof.
  induction names as [|n names IH]; intros Hk; [reflexivity|]. cbn [first_present].
  rewrite lookup_insert_ne by (intros ->; apply Hk; now left).
  rewrite IH by (intros H; apply Hk; now right). reflexivity.
Qed.

(** X9: A column whose header is none of the known names has no influence
    on the record a row is normalised to. *)
Theorem unknown_columns_ignored (iso_date : scalar -> option string) (r : row)
    (k : string) (v : scalar) :
  ~ In k known_columns ->
  normalizeLibationData iso_date (<[k:=v]> r) = normalizeLibationData iso_date r.
Proof.
  intros Hk. unfold normalizeLibationData, known_columns in *.
  rewrite !in_app_iff in Hk.
  rewrite !first_present_insert by tauto. reflexivity.
Qed.

Lemma unknown_columns_ignored_witness :
  normalizeLibationData calendar_date
    (<["Categories" := SStr "Fantasy"]> (foo_row "B001" "Foo One" (of_Z 1)))
  = normalizeLibationData calendar_date (foo_row "B001" "Foo One" (of_Z 1)).
Proof.
  apply (unknown_columns_ignored calendar_date (foo_row "B001" "Foo One" (of_Z 1))
           "Categories" (SStr "Fantasy")).
  vm_compute. intuition discriminate.
Defined.

(** X10: The alias search returns the cell of the first listed name whose
    cell is neither missing, null nor the empty string; names before it
    are skipped even when their cell is there but empty. *)
Theorem first_present_first (r : row) (names : list string) (v : scalar) :
  first_present r names = Some v <->
  exists before name after,
    names = before ++ name :: after
    /\ r !! name = Some v
    /\ v <> SNull /\ v <> SStr ""
    /\ Forall (fun n => present (r !! n) = false) before.
Proof.
  induction names as [|n names IH]; cbn [first_present].
  - split; [discriminate|]. intros (before & name & after & E & _). now destruct before.
  - destruct (present (r !! n)) eqn:Hn.
    + split.
      * intros Hv. exists [], n, names. split; [reflexivity|]. split; [exact Hv|].
        rewrite Hv in Hn. unfold present in Hn.
        split; [intros ->; discriminate|]. split; [|constructor].
        intros ->. now rewrite bool_decide_eq_true_2 in Hn.
      * intros (before & name & after & E & Hv & _ & _ & Hskip).
        destruct before as [|b before]; cbn [app] in E; injection E as E1 E2.
        -- now subst name.
        -- subst b. apply Forall_inv in Hskip. congruence.
    + rewrite IH. split.
      * intros (before & name & after & E & Hrest). exists (n :: before), name, after.
        split; [now rewrite E|]. destruct Hrest as (? & ? & ? & ?).
        repeat split; try assumption. now constructor.
      * intros (before & name & after & E & Hv & Hnull & Hempty & Hskip).
        destruct before as [|b before]; cbn [app] in E; injection E as E1 E2.
        -- subst name. rewrite Hv in Hn. unfold present in Hn.
           destruct v; try discriminate.
           ++ now destruct Hnull.
           ++ destruct Hempty. f_equal. case_bool_decide; [assumption|discriminate].
        -- exists before, name, after. apply Forall_inv_tail in Hskip.
           repeat split; assumption.
Qed.

(** ** Signs *)

Lemma span_digits_digits (l : list ascii) : Forall (fun c => is_digit c = true) (fst (span_digits l)).
Proof.
  induction l as [|c l IH]; cbn [span_digits]; [constructor|].
  destruct (is_digit c) eqn:Hc; [|constructor].
  destruct (span_digits l) as [ds r]. cbn [fst] in *. now constructor.
Qed.

Lemma digit_value_nonneg (c : ascii) : is_digit c = true -> (0 <= digit_value c)%Z.
Proof.
  unfold is_digit, digit_value. intros H. apply andb_true_iff in H.
  destruct H as [H _]. apply N.leb_le in H. lia.
Qed.

Lemma digits_value_nonneg (l : list ascii) :
  Forall (fun c => is_digit c = true) l -> (0 <= digits_value l)%Z.
Proof.
  unfold digits_value. intros Hl.
  assert (forall acc, (0 <= acc)%Z ->
            (0 <= fold_left (fun acc c => 10 * acc + digit_value c) l acc)%Z) as H.
  { induction Hl as [|c l Hc Hl IH]; intros acc Hacc; cbn [fold_left]; [exact Hacc|].
    apply IH. pose proof (digit_value_nonneg c Hc). lia. }
  apply H. lia.
Qed.

Lemma parseFloat_nonneg (s : string) (q : Qc) : parseFloat s = Some q -> (0 ≤ q)%Qc.
Proof.
  unfold parseFloat.
  pose proof (span_digits_digits (chars s)) as Hip.
  destruct (span_digits (chars s)) as [ip r]. cbn [fst] in Hip.
  set (fp := match r with
             | [] => []
             | c :: r' => if bool_decide (c = "."%char) then fst (span_digits r') else []
             end).
  assert (Forall (fun c => is_digit c = true) fp) as Hfp.
  { unfold fp. destruct r as [|c r']; [constructor|].
    destruct (bool_decide (c = "."%char)); [apply span_digits_digits|constructor]. }
  clearbody fp.
  assert (0 ≤ Q2Qc (inject_Z (digits_value ip)
                    + (digits_value fp # Z.to_pos (10 ^ Z.of_nat (length fp)))))%Qc as H.
  { unfold Qcle. cbn [this Q2Qc]. change (this 0%Qc) with 0%Q.
    setoid_rewrite Qred_correct.
    apply digits_value_nonneg in Hip, Hfp.
    assert (0 <= inject_Z (digits_value ip))%Q
      by (change 0%Q with (inject_Z 0); now rewrite <- Zle_Qle).
    assert (0 <= digits_value fp # Z.to_pos (10 ^ Z.of_nat (length fp)))%Q
      by (unfold Qle; simpl; lia).
    lra. }
  destruct ip, fp; intros [= <-]; exact H.
Qed.

(** X11: A parsed series position or rating is never negative: the patterns
    keep digits and dots only, so a minus sign in the cell is lost. *)
Theorem parsed_numbers_nonnegative (v : option scalar) (q : Qc) :
  parseSeriesPosition v = Some q \/ parseRating v = Some q -> (0 ≤ q)%Qc.
Proof.
  unfold parseSeriesPosition, parseRating. intros [H|H].
  - destruct (falsy v); [discriminate|]. destruct v as [x|]; [|discriminate].
    destruct (str_match position_pattern (to_string x)); [|discriminate].
    now apply parseFloat_nonneg in H.
  - destruct (falsy v); [discriminate|]. destruct v as [x|]; [|discriminate].
    now apply parseFloat_nonneg in H.
Qed.

Lemma parsed_numbers_nonnegative_witness :
  parseSeriesPosition (Some (SStr "-2")) = Some (of_Z 2)
  /\ parseRating (Some (SStr "-3.5")) = Some (ratio 7 2)
  /\ (0 ≤ of_Z 2)%Qc.
Proof.
  split; [compute_done|]. split; [compute_done|].
  apply (parsed_numbers_nonnegative (Some (SStr "-2")) (of_Z 2)).
  left. compute_done.
Defined.

(** ** Cleaning a series name *)

Lemma rmatch_anchored {A} (r : regex) :
  anchored r ->
  forall (s : list ascii) (c : captures) (k : list ascii -> captures -> option A) (x : A),
    rmatch r s c k = Some x -> exists c', k [] c' = Some x.
Proof.
  induction 1 as [|a b Hb IH]; intros s c k x; cbn [rmatch].
  - destruct s; [|discriminate]. intros H. now exists c.
  - intros H. apply rmatch_suffix in H. destruct H as (pre & s' & c' & _ & H).
    now apply IH in H.
Qed.

Lemma search_anchored (r : regex) (s : list ascii) :
  anchored r ->
  forall (before : list ascii) (m : match_result),
    search r before s = Some m -> m_after m = [].
Proof.
  intros Hr. induction s as [|y s IH]; intros before m; cbn [search].
  - destruct (rmatch r [] [] _) as [m'|] eqn:E; [|discriminate].
    intros [= ->]. apply (rmatch_anchored r Hr) in E. now destruct E as (c' & [= <-]).
  - destruct (rmatch r (y :: s) [] _) as [m'|] eqn:E.
    + intros [= ->]. apply (rmatch_anchored r Hr) in E. now destruct E as (c' & [= <-]).
    + apply IH.
Qed.

(** Cutting the first match of an anchored pattern out of a string
    leaves a prefix of the string. *)
Lemma replace_first_prefix (r : regex) (s : string) :
  anchored r -> exists cut, chars s = chars (replace_first r s) ++ cut.
Proof.
  intros Hr. unfold replace_first, str_match.
  destruct (search r [] (chars s)) as [m|] eqn:E.
  - pose proof (search_splits r (chars s) [] m E) as Hsplit.
    rewrite (search_anchored r (chars s) Hr [] m E) in *.
    rewrite !app_nil_r in *. cbn [rev app] in Hsplit.
    exists (m_text m). unfold chars, text.
    now rewrite list_ascii_of_string_of_list_ascii.
  - exists []. now rewrite app_nil_r.
Qed.

Lemma suffix_patterns_anchored :
  anchored book_suffix /\ anchored hash_suffix
  /\ anchored volume_suffix /\ anchored part_suffix.
Proof.
  unfold book_suffix, hash_suffix, volume_suffix, part_suffix, suffix_pattern.
  cbn [seq]. repeat split; repeat constructor.
Qed.

Lemma drop_spaces_head (l : list ascii) :
  match drop_spaces l with
  | c :: _ => is_space c = false
  | [] => True
  end.
Proof.
  induction l as [|c l IH]; cbn [drop_spaces]; [exact I|].
  destruct (is_space c) eqn:Hc; [exact IH|exact Hc].
Qed.

Lemma drop_spaces_suffix (l : list ascii) : exists pre, l = pre ++ drop_spaces l.
Proof.
  induction l as [|c l [pre IH]]; cbn [drop_spaces]; [now exists []|].
  destruct (is_space c); [|now exists []].
  exists (c :: pre). cbn [app]. now f_equal.
Qed.

Lemma trim_no_outer_space (s : string) :
  (forall c rest, chars (trim s) = c :: rest -> is_space c = false)
  /\ (forall c rest, rev (chars (trim s)) = c :: rest -> is_space c = false).
Proof.
  unfold trim, chars, text. rewrite list_ascii_of_string_of_list_ascii.
  fold (chars s). set (x := drop_spaces (chars s)).
  pose proof (drop_spaces_head (chars s)) as Hx. fold x in Hx.
  pose proof (drop_spaces_head (rev x)) as Hy.
  destruct (drop_spaces_suffix (rev x)) as [pre Hpre].
  split.
  - intros c rest E.
    assert (x = rev (drop_spaces (rev x)) ++ rev pre) as Hsplit.
    { rewrite <- rev_app_distr, <- Hpre. now rewrite rev_involutive. }
    rewrite E in Hsplit. rewrite Hsplit in Hx. exact Hx.
  - intros c rest E. rewrite rev_involutive in E. now rewrite E in Hy.
Qed.

(** X12: A cleaned series name is the trimmed form of a prefix of the cell:
    cleaning only cuts text off the end, and white space off both ends;
    it never rewrites what it keeps. *)
Theorem cleanSeriesName_cuts_the_end (v : option scalar) (name : string) :
  cleanSeriesName v = Ok (Some name) ->
  (exists (s kept : string) (cut : list ascii),
     v = Some (SStr s)
     /\ chars s = chars kept ++ cut
     /\ name = trim kept)
  /\ (forall c rest, chars name = c :: rest -> is_space c = false)
  /\ (forall c rest, rev (chars name) = c :: rest -> is_space c = false).
Proof.
  unfold cleanSeriesName. destruct v as [x|]; [|discriminate].
  destruct (truthy x); cbn [negb]; [|discriminate].
  destruct x as [| | |s]; try discriminate.
  destruct (bool_decide (trim s = "")); [discriminate|]. intros [= <-].
  split; [|apply trim_no_outer_space].
  destruct suffix_patterns_anchored as (Hb & Hh & Hv & Hp).
  destruct (replace_first_prefix book_suffix s Hb) as [c1 E1].
  destruct (replace_first_prefix hash_suffix (replace_first book_suffix s) Hh) as [c2 E2].
  destruct (replace_first_prefix volume_suffix
              (replace_first hash_suffix (replace_first book_suffix s)) Hv) as [c3 E3].
  destruct (replace_first_prefix part_suffix
              (replace_first volume_suffix
                 (replace_first hash_suffix (replace_first book_suffix s))) Hp) as [c4 E4].
  exists s, (replace_first part_suffix
               (replace_first volume_suffix
                  (replace_first hash_suffix (replace_first book_suffix s)))),
    (c4 ++ c3 ++ c2 ++ c1).
  split; [reflexivity|]. split; [|reflexivity].
  rewrite E1, E2, E3, E4 at 1. now rewrite <- !app_assoc.
Qed.

Lemma cleanSeriesName_cuts_the_end_witness :
  (exists (s kept : string) (cut : list ascii),
     Some (SStr " The Expanse, Book 4 (unabridged)") = Some (SStr s)
     /\ chars s = chars kept ++ cut
     /\ "The Expanse" = trim kept)
  /\ (forall c rest, chars "The Expanse" = c :: rest -> is_space c = false)
  /\ (forall c rest, rev (chars "The Expanse") = c :: rest -> is_space c = false).
Proof.
  apply (cleanSeriesName_cuts_the_end
           (Some (SStr " The Expanse, Book 4 (unabridged)")) "The Expanse").
  vm_compute. reflexivity.
Defined.

(** ** Durations *)

Lemma rmatch_digits {A} (r : regex) :
  digits_only r ->
  forall (s : list ascii) (c : captures) (k : list ascii -> captures -> option A) (x : A),
    rmatch r s c k = Some x ->
    exists pre s', s = pre ++ s' /\ all_digits pre /\ k s' c = Some x.
Proof.
  induction 1 as [|a b Ha IHa Hb IHb|greedy a Ha IHa|a Ha IHa]; intros s c k x; cbn [rmatch].
  - destruct s as [|y s']; [discriminate|].
    destruct (is_digit y) eqn:Hy; [|discriminate]. intros H.
    exists [y], s'. repeat split; [|exact H]. now repeat constructor.
  - intros H. apply IHa in H. destruct H as (pre1 & s1 & -> & H1 & H).
    apply IHb in H. destruct H as (pre2 & s2 & -> & H2 & H).
    exists (pre1 ++ pre2), s2. rewrite <- app_assoc. repeat split; [|exact H].
    now apply Forall_app.
  - generalize (length s) as fuel. intros fuel. revert s.
    induction fuel as [|fuel IH]; intros s H.
    + exists [], s. repeat split; [constructor|exact H].
    + assert (rmatch a s c
                (fun s' c' =>
                   if (length s' <? length s)%nat
                   then (fix iterate (fuel : nat) (s : list ascii) (c : captures) : option A :=
                           match fuel with
                           | O => k s c
                           | S fuel' =>
                               let more :=
                                 rmatch a s c (fun s' c' =>
                                   if (length s' <? length s)%nat
                                   then iterate fuel' s' c' else None) in
                               if greedy then orelse more (k s c) else orelse (k s c) more
                           end) fuel s' c'
                   else None) = Some x
              \/ k s c = Some x) as [Hmore|Hstop].
      { destruct greedy; apply orelse_Some in H; tauto. }
      * apply IHa in Hmore. destruct Hmore as (pre1 & s1 & -> & H1 & Hmore).
        destruct (length s1 <? length (pre1 ++ s1))%nat; [|discriminate].
        apply IH in Hmore. destruct Hmore as (pre2 & s2 & -> & H2 & Hmore).
        exists (pre1 ++ pre2), s2. rewrite <- app_assoc. repeat split; [|exact Hmore].
        now apply Forall_app.
      * exists [], s. repeat split; [constructor|exact Hstop].
  - intros H. apply orelse_Some in H. destruct H as [H|H].
    + now apply IHa in H.
    + exists [], s. repeat split; [constructor|exact H].
Qed.

Lemma rmatch_groups {A} (r : regex) :
  groups_digits r ->
  forall (s : list ascii) (c : captures) (k : list ascii -> captures -> option A) (x : A),
    captured_digits c ->
    rmatch r s c k = Some x ->
    exists s' c', captured_digits c' /\ k s' c' = Some x.
Proof.
  induction 1 as [p|a b Ha IHa Hb IHb|greedy a Ha IHa|a Ha IHa|n a Ha|];
    intros s c k x Hc; cbn [rmatch].
  - destruct s as [|y s']; [discriminate|]. destruct (p y); [|discriminate].
    intros H. now exists s', c.
  - intros H. apply (IHa _ _ _ _ Hc) in H. destruct H as (s1 & c1 & Hc1 & H).
    now apply (IHb _ _ _ _ Hc1) in H.
  - generalize (length s) as fuel. intros fuel. revert s c Hc.
    induction fuel as [|fuel IH]; intros s c Hc H.
    + now exists s, c.
    + assert (rmatch a s c
                (fun s' c' =>
                   if (length s' <? length s)%nat
                   then (fix iterate (fuel : nat) (s : list ascii) (c : captures) : option A :=
                           match fuel with
                           | O => k s c
                           | S fuel' =>
                               let more :=
                                 rmatch a s c (fun s' c' =>
                                   if (length s' <? length s)%nat
                                   then iterate fuel' s' c' else None) in
                               if greedy then orelse more (k s c) else orelse (k s c) more
                           end) fuel s' c'
                   else None) = Some x
              \/ k s c = Some x) as [Hmore|Hstop].
      { destruct greedy; apply orelse_Some in H; tauto. }
      * apply (IHa _ _ _ _ Hc) in Hmore. destruct Hmore as (s1 & c1 & Hc1 & Hmore).
        destruct (length s1 <? length s)%nat; [|discriminate].
        now apply (IH _ _ Hc1) in Hmore.
      * now exists s, c.
  - intros H. apply orelse_Some in H. destruct H as [H|H].
    + now apply (IHa _ _ _ _ Hc) in H.
    + now exists s, c.
  - intros H. apply (rmatch_digits a Ha) in H.
    destruct H as (pre & s' & -> & Hpre & H).
    exists s', ((n, text (take (length (pre ++ s') - length s') (pre ++ s'))) :: c).
    split; [|exact H]. constructor; [|exact Hc]. cbn [snd].
    rewrite length_app, Nat.add_sub, take_app_length. unfold chars, text.
    now rewrite list_ascii_of_string_of_list_ascii.
  - destruct s; [|discriminate]. intros H. now exists [], c.
Qed.

Lemma search_groups (r : regex) (s : list ascii) :
  groups_digits r ->
  forall (before : list ascii) (m : match_result),
    search r before s = Some m -> captured_digits (m_groups m).
Proof.
  intros Hr. induction s as [|y s IH]; intros before m; cbn [search].
  - destruct (rmatch r [] [] _) as [m'|] eqn:E; [|discriminate].
    intros [= ->]. apply (rmatch_groups r Hr) in E; [|constructor].
    now destruct E as (s' & c' & Hc & [= <-]).
  - destruct (rmatch r (y :: s) [] _) as [m'|] eqn:E.
    + intros [= ->]. apply (rmatch_groups r Hr) in E; [|constructor].
      now destruct E as (s' & c' & Hc & [= <-]).
    + apply IH.
Qed.

Lemma group_nonneg (r : regex) (s : string) (m : match_result) (n : nat) :
  groups_digits r -> str_match r s = Some m -> (0 <= parseInt (group n m))%Z.
Proof.
  intros Hr Hm. apply (search_groups r _ Hr) in Hm.
  unfold parseInt, group. apply digits_value_nonneg.
  induction Hm as [|[k t] c Ht Hc IH]; cbn [capture]; [constructor|].
  destruct (Nat.eqb k n); [exact Ht|exact IH].
Qed.

Lemma duration_patterns_groups :
  groups_digits hm_pattern /\ groups_digits time_pattern
  /\ groups_digits mins_pattern /\ groups_digits hrs_pattern.
Proof.
  unfold hm_pattern, time_pattern, mins_pattern, hrs_pattern.
  repeat split; cbv [seq word lit plus star lazy_star digit space any map chars
                       list_ascii_of_string];
    repeat first [ apply groups_seq | apply groups_group | apply groups_star
                 | apply groups_opt | apply groups_char | apply digits_seq
                 | apply digits_star | apply digits_char ].
Qed.

(** X13: A parsed duration is never negative. *)
Theorem parseDuration_nonnegative (v : option scalar) (minutes : Z) :
  parseDuration v = Some minutes -> (0 <= minutes)%Z.
Proof.
  destruct duration_patterns_groups as (Hhm & Htime & Hmins & Hhrs).
  unfold parseDuration. destruct (falsy v); [discriminate|].
  destruct v as [x|]; [|discriminate].
  destruct (str_match hm_pattern _) as [m|] eqn:E1.
  { intros [= <-]. pose proof (group_nonneg _ _ m 1 Hhm E1).
    pose proof (group_nonneg _ _ m 2 Hhm E1). lia. }
  destruct (str_match time_pattern _) as [m|] eqn:E2.
  { intros [= <-]. pose proof (group_nonneg _ _ m 1 Htime E2).
    pose proof (group_nonneg _ _ m 2 Htime E2). lia. }
  destruct (str_match mins_pattern _) as [m|] eqn:E3.
  { intros [= <-]. exact (group_nonneg _ _ m 1 Hmins E3). }
  destruct (str_match hrs_pattern _) as [m|] eqn:E4; [|discriminate].
  intros [= <-]. pose proof (group_nonneg _ _ m 1 Hhrs E4). lia.
Qed.

Lemma parseDuration_nonnegative_witness :
  parseDuration (Some (SStr "-1:99")) = Some 159%Z /\ (0 <= 159)%Z.
Proof.
  split; [vm_compute; reflexivity|].
  apply (parseDuration_nonnegative (Some (SStr "-1:99")) 159). vm_compute. reflexivity.
Defined.

(** ** Reading a series back *)

Global Instance details_order_total : Total details_order.
Proof.
  intros a b. unfold details_order.
  destruct (Qclt_le_dec (details_key a) (details_key b)) as [H|H]; [now left; left|].
  destruct (Qclt_le_dec (details_key b) (details_key a)) as [H'|H']; [now right; left|].
  assert (details_key a = details_key b) as E by now apply Qcle_antisym.
  destruct (String.le_total (to_string (row_title a)) (to_string (row_title b)));
    [left|right]; right; split; congruence || assumption.
Qed.

Global Instance details_order_trans : Transitive details_order.
Proof.
  intros a b c [H1|[E1 T1]] [H2|[E2 T2]]; unfold details_order.
  - left. eapply Qclt_trans; eassumption.
  - left. now rewrite <- E2.
  - left. now rewrite E1.
  - right. split; [congruence|]. etransitivity; eassumption.
Qed.

Lemma StronglySorted_lookup {A} (R : A -> A -> Prop) (l : list A) :
  StronglySorted R l ->
  forall (i j : nat) (x y : A), (i < j)%nat -> l !! i = Some x -> l !! j = Some y -> R x y.
Proof.
  induction 1 as [|a l Hl IH Ha]; intros i j x y Hij Hi Hj; [discriminate|].
  destruct j as [|j]; [lia|]. cbn in Hj. destruct i as [|i].
  - cbn in Hi. injection Hi as <-. rewrite Forall_forall in Ha. apply Ha.
    eapply list_elem_of_lookup_2. exact Hj.
  - cbn in Hi. apply (IH i j); [lia|assumption..].
Qed.

Lemma select_series_rows (name : string) (d : database) (r : book_row) :
  In r (select_series name d) <->
  In r (audiobooks d) /\ row_series_name r = Some name.
Proof.
  unfold select_series. rewrite <- list_elem_of_In, merge_sort_Permutation.
  rewrite list_elem_of_In, filter_In. now rewrite bool_decide_eq_true.
Qed.

Lemma getSeriesDetails_rows (name : string) (d : database) :
  detail_row <$> getSeriesDetails name d = select_series name d.
Proof.
  unfold getSeriesDetails. induction (select_series name d) as [|r l IH]; [reflexivity|].
  rewrite !fmap_cons, IH. reflexivity.
Qed.

(** X14: [getSeriesDetails] lists every row of the asked series once,
    and no other row. Each entry reads "missing" when the row is not
    owned, even when it was marked as listened, "completed" when it is
    owned and listened and "owned" otherwise; its display title is the
    stored title when the position is NULL or 0 and
    ["Book <position>: <title>"] for another whole position. The
    entries are in ascending order of position, with 999999 standing in
    for a missing position, so that a book without position comes after
    every book below 999999 and before every book above it; entries
    with the same key are in the order of their titles. *)
Theorem getSeriesDetails_order (name : string) (d : database) :
  Permutation (detail_row <$> getSeriesDetails name d)
    (List.filter (fun r => bool_decide (row_series_name r = Some name)) (audiobooks d))
  /\ (forall x, In x (getSeriesDetails name d) ->
        In (detail_row x) (audiobooks d)
        /\ row_series_name (detail_row x) = Some name
        /\ (row_owned (detail_row x) = false -> status x = "missing")
        /\ (row_owned (detail_row x) = true -> row_listened (detail_row x) = true ->
            status x = "completed")
        /\ (row_owned (detail_row x) = true -> row_listened (detail_row x) = false ->
            status x = "owned")
        /\ (row_series_position (detail_row x) = None ->
            display_title x = row_title (detail_row x))
        /\ (row_series_position (detail_row x) = Some 0%Qc ->
            display_title x = row_title (detail_row x))
        /\ (forall (z : Z) (t : string),
              row_series_position (detail_row x) = Some (of_Z z) ->
              z <> 0%Z ->
              isSafeInteger (of_Z z) ->
              row_title (detail_row x) = SStr t ->
              display_title x
              = SStr ("Book " +:+ number_to_string (of_Z z) +:+ ": " +:+ t)))
  /\ (forall (i j : nat) (x y : series_detail),
        getSeriesDetails name d !! i = Some x ->
        getSeriesDetails name d !! j = Some y ->
        (i < j)%nat ->
        (details_key (detail_row x) ≤ details_key (detail_row y))%Qc
        /\ (forall p, row_series_position (detail_row x) = None ->
              row_series_position (detail_row y) = Some p -> (of_Z 999999 ≤ p)%Qc)
        /\ (forall p, row_series_position (detail_row x) = Some p ->
              row_series_position (detail_row y) = None -> (p ≤ of_Z 999999)%Qc)
        /\ (forall s t, details_key (detail_row x) = details_key (detail_row y) ->
              row_title (detail_row x) = SStr s ->
              row_title (detail_row y) = SStr t ->
              String.le s t)).
Proof.
  split; [|split].
  - rewrite getSeriesDetails_rows. apply merge_sort_Permutation.
  - intros x Hx. unfold getSeriesDetails in Hx.
    apply (in_map_iff _ (select_series name d)) in Hx. destruct Hx as (a & <- & Ha).
    apply select_series_rows in Ha. destruct Ha as [Ha Hname].
    cbn [detail_row status display_title]. unfold book_status, book_display_title.
    split; [exact Ha|]. split; [exact Hname|].
    split; [now intros ->|]. split; [now intros -> ->|]. split; [now intros -> ->|].
    split; [now intros ->|]. split; [now intros ->|].
    intros z t -> Hz _ ->. rewrite bool_decide_eq_false_2; [reflexivity|].
    change 0%Qc with (of_Z 0). intros E. now apply of_Z_inj in E.
  - intros i j x y. unfold getSeriesDetails. rewrite !list_lookup_fmap.
    destruct (select_series name d !! i) as [a|] eqn:Hi; [|discriminate].
    destruct (select_series name d !! j) as [b|] eqn:Hj; [|discriminate].
    cbn [fmap option_fmap option_map]. intros [= <-] [= <-] Hij. cbn [detail_row].
    assert (details_order a b) as Hord.
    { eapply (StronglySorted_lookup details_order (select_series name d)); try eassumption.
      unfold select_series. apply StronglySorted_merge_sort; apply _. }
    assert (details_key a ≤ details_key b)%Qc as Hkey.
    { destruct Hord as [H|[H _]]; [now apply Qclt_le_weak|].
      rewrite H. apply Qcle_refl. }
    split; [exact Hkey|]. unfold details_key in Hkey. split; [|split].
    + intros p Hx Hy. now rewrite Hx, Hy in Hkey.
    + intros p Hx Hy. now rewrite Hx, Hy in Hkey.
    + intros s t E Hs Ht. destruct Hord as [H|[_ H]].
      * rewrite E in H. now apply Qclt_not_eq in H.
      * now rewrite Hs, Ht in H.
Qed.

(** The far shelf, read back: the placeholder of book 2 first, then the
    novella without position, then book 1000000. *)
Example getSeriesDetails_far_shelf :
  ((fun x => (row_id (detail_row x), status x, display_title x))
     <$> getSeriesDetails "Foo" far_shelf)
  = [ (3%Z, "missing", SStr "Book 2: Foo Book 2");
      (2%Z, "completed", SStr "A Foo Novella");
      (1%Z, "owned", SStr "Book 1000000: A Foo Book") ].
Proof. vm_compute. reflexivity. Qed.

(** ** The size of the table *)

Lemma filter_split_length {A} (p : A -> bool) (l : list A) :
  (length (List.filter p l) + length (List.filter (fun x => negb (p x)) l))%nat = length l.
Proof.
  induction l as [|x l IH]; [reflexivity|]. cbn [List.filter].
  destruct (p x); cbn [negb length]; lia.
Qed.

Lemma conflicts_at_most_one (a : option scalar) (rows : list book_row) :
  NoDup (omap row_asin rows) ->
  (length (List.filter (asin_conflict a) rows) <= 1)%nat.
Proof.
  destruct a as [a|]; [|intros _; rewrite filter_none; [simpl; lia|]; intros r _; discriminate].
  induction rows as [|r rows IH]; intros Hnd; [simpl; lia|]. cbn [List.filter].
  cbn [omap list_omap] in Hnd. unfold asin_conflict at 1.
  destruct (row_asin r) as [y|] eqn:Hy; cbn [from_option option_rect] in Hnd.
  - apply NoDup_cons in Hnd. destruct Hnd as [Hy' Hnd].
    case_bool_decide as Hay; [|now apply IH]. subst y.
    rewrite filter_none; [simpl; lia|].
    intros x Hx Hc. apply Hy'. apply list_elem_of_omap. exists x.
    split; [now apply list_elem_of_In|]. unfold asin_conflict in Hc.
    destruct (row_asin x) as [z|]; [|discriminate].
    apply bool_decide_eq_true in Hc. now subst z.
  - now apply IH.
Qed.

(** A record whose ASIN is text or missing leaves the ASINs of the
    table text or NULL. *)
Lemma upsert_keeps_text (b : Audiobook) (d : database) :
  asins_are_text d -> text_or_null (asin b) ->
  asins_are_text (snd (upsertAudiobook b d)).
Proof.
  unfold asins_are_text, upsertAudiobook. cbn [snd audiobooks]. intros Hd Hb.
  apply Forall_app. split.
  - apply Forall_forall. intros r Hr. apply list_elem_of_In, filter_In in Hr.
    destruct Hr as [Hr _]. rewrite Forall_forall in Hd. now apply Hd, list_elem_of_In.
  - constructor; [exact Hb|constructor].
Qed.

(** X15: In a table where the ASINs are text or NULL and no two rows
    share one, upserting a record whose ASIN is text or missing leaves
    the number of rows as it was when a row has the record's ASIN (that
    row is replaced), and adds one row otherwise; the ASINs of the table
    are text or NULL afterwards. *)
Theorem upsert_size (b : Audiobook) (d : database) :
  table_consistent d ->
  asins_are_text d ->
  text_or_null (asin b) ->
  length (audiobooks (snd (upsertAudiobook b d)))
  = (if existsb (asin_conflict (asin b)) (audiobooks d)
     then length (audiobooks d)
     else S (length (audiobooks d)))
  /\ asins_are_text (snd (upsertAudiobook b d)).
Proof.
  intros [Hasin _] Htext Hb. split; [|now apply upsert_keeps_text].
  unfold upsertAudiobook. cbn [snd audiobooks].
  rewrite length_app. cbn [length].
  pose proof (filter_split_length (asin_conflict (asin b)) (audiobooks d)) as Hsplit.
  pose proof (conflicts_at_most_one (asin b) (audiobooks d) Hasin) as Hone.
  destruct (existsb (asin_conflict (asin b)) (audiobooks d)) eqn:Hex.
  - apply existsb_exists in Hex. destruct Hex as (r & Hr & Hc).
    assert (In r (List.filter (asin_conflict (asin b)) (audiobooks d))) as Hin
      by (apply filter_In; now split).
    destruct (List.filter (asin_conflict (asin b)) (audiobooks d)); [destruct Hin|].
    cbn [length] in *. lia.
  - rewrite (filter_none (asin_conflict (asin b))) in Hsplit.
    + cbn [length] in Hsplit. lia.
    + intros x Hx Hc. assert (existsb (asin_conflict (asin b)) (audiobooks d) = true)
        by (apply existsb_exists; now exists x). congruence.
Qed.

(** Book B001 of the Foo sheet, upserted into the table the Foo sheet
    left: four rows before, four rows after. *)
Lemma upsert_size_witness :
  length (audiobooks (store_after calendar_date foo_sheet empty_database)) = 4%nat
  /\ length (audiobooks
               (snd (upsertAudiobook
                       {| id := 0; asin := Some (SStr "B001"); title := SStr "Foo One";
                          series_name := Some "Foo"; series_position := Some (of_Z 1);
                          author := None; narrator := None; owned := true;
                          listened := false; release_date := None; purchase_date := None;
                          rating := None; length_minutes := None |}
                       (store_after calendar_date foo_sheet empty_database))))
     = 4%nat.
Proof.
  split; [reflexivity|].
  apply (upsert_size
           {| id := 0; asin := Some (SStr "B001"); title := SStr "Foo One";
              series_name := Some "Foo"; series_position := Some (of_Z 1);
              author := None; narrator := None; owned := true;
              listened := false; release_date := None; purchase_date := None;
              rating := None; length_minutes := None |}
           (store_after calendar_date foo_sheet empty_database)).
  - split; apply (bool_decide_unpack _); vm_compute; reflexivity.
  - vm_compute. repeat constructor.
  - exact I.
Defined.

(** ** The examples of the further properties *)


(** The placeholder of book 3 is still there after the sheet with the
    real book 3 has been imported, and is still counted as missing. *)
Lemma import_keeps_rows_without_asin_witness :
  ((fun r => (row_id r, row_title r, row_series_position r, row_owned r))
     <$> audiobooks (store_after calendar_date foo_sheet_complete
                       (store_after calendar_date foo_sheet empty_database)))
  = [ (4%Z, SStr "Foo Book 3", Some (of_Z 3), false);
      (5%Z, SStr "Foo One", Some (of_Z 1), true);
      (6%Z, SStr "Foo Two", Some (of_Z 2), true);
      (7%Z, SStr "Foo Four", Some (of_Z 4), true);
      (8%Z, SStr "Foo Three", Some (of_Z 3), true) ]
  /\ In (to_row 4 (placeholder "Foo" (of_Z 3) (Some (SStr "A. Writer"))))
        (audiobooks (store_after calendar_date foo_sheet_complete
                       (store_after calendar_date foo_sheet empty_database))).
Proof.
  split; [reflexivity|].
  apply (import_keeps_rows_without_asin calendar_date foo_sheet_complete
           (store_after calendar_date foo_sheet empty_database)
           (store_after calendar_date foo_sheet_complete
              (store_after calendar_date foo_sheet empty_database))
           (mkSummary 4 1 1)).
  - reflexivity.
  - right. right. right. left. reflexivity.
  - reflexivity.
Defined.

Lemma import_counts_series_witness :
  exists books,
    traverse (normalizeLibationData calendar_date) foo_sheet = Ok books
    /\ groups_books books (fold_left track_series books [])
    /\ 1%nat = length (series_names books)
    /\ 3%nat = length foo_sheet
    /\ (1 <= 3)%nat.
Proof.
  apply (import_counts_series calendar_date foo_sheet empty_database
           (store_after calendar_date foo_sheet empty_database) (mkSummary 3 1 1)).
  reflexivity.
Defined.
